(** * Link saver: the bookmark form and the bookmark grid

    A shallow embedding of the client-side logic of
    [src/components/AddBookmarkForm.tsx] (the [AddBookmarkForm] component and
    the [BookmarkGrid] component that follows it in the same file): summary
    capping, tag parsing, position normalisation after a fetch, the search and
    tag filter, deletion, and drag-and-drop reordering with its persistence
    loop.

    Conventions.
    - A JavaScript string is a [string]: a sequence of code units.  Each
      [ascii] stands for one code unit below 256; [length], [substring],
      [split], [trim], [includes] count and compare code units exactly as the
      JavaScript methods do.
    - A JavaScript array is a [list]; [arr[i] = x] is [<[i:=x]> arr].
    - [position] is an integer ([Z]).
    - A call to the remote store has three possible outcomes: the promise
      resolves without an error, it resolves with an [error] field, or it
      rejects (an exception at the [await]). *)

From Stdlib Require Import ZArith Lia Ascii String.
From stdpp Require Import base list strings sorting.

Local Open Scope Z_scope.

(** ** JavaScript string methods used by the components *)

Module JsString.

Definition code (c : ascii) : N := N_of_ascii c.

(** [WhiteSpace] and [LineTerminator] code points below 256: TAB, LF, VT,
    FF, CR, SP and NBSP.  These are what [String.prototype.trim] strips. *)
Definition isWhiteSpace (c : ascii) : bool :=
  let n := code c in
  ((9 <=? n)%N && (n <=? 13)%N) || (n =? 32)%N || (n =? 160)%N.

(** [s.trimStart()] *)
Fixpoint trimStart (s : string) : string :=
  match s with
  | EmptyString => EmptyString
  | String c s' => if isWhiteSpace c then trimStart s' else s
  end.

(** [s.trimEnd()] *)
Fixpoint trimEnd (s : string) : string :=
  match s with
  | EmptyString => EmptyString
  | String c s' =>
      match trimEnd s' with
      | EmptyString => if isWhiteSpace c then EmptyString else String c EmptyString
      | r => String c r
      end
  end.

(** [s.trim()] *)
Definition trim (s : string) : string := trimEnd (trimStart s).

(** [s.split(',')]: the segments between commas; never the empty array. *)
Fixpoint split_comma (s : string) : list string :=
  match s with
  | EmptyString => [EmptyString]
  | String c s' =>
      if Ascii.eqb c ","%char then EmptyString :: split_comma s'
      else match split_comma s' with
           | seg :: rest => String c seg :: rest
           | [] => [String c EmptyString]
           end
  end.

(** [s.substring(0, n)] *)
Definition substring0 (n : nat) (s : string) : string := String.substring 0 n s.

(** [s.startsWith(p)] *)
Fixpoint startsWith (p s : string) : bool :=
  match p, s with
  | EmptyString, _ => true
  | String a p', String b s' => Ascii.eqb a b && startsWith p' s'
  | String _ _, EmptyString => false
  end.

(** [s.includes(sub)]: [sub] occurs in [s] as a contiguous run. *)
Fixpoint includes (s sub : string) : bool :=
  startsWith sub s ||
  match s with
  | EmptyString => false
  | String _ s' => includes s' sub
  end.

(** Lower-casing of one code unit below 256: [A-Z] and the Latin-1 capitals
    U+00C0..U+00DE other than the multiplication sign U+00D7. *)
Definition lowerUnit (c : ascii) : ascii :=
  let n := code c in
  if ((65 <=? n)%N && (n <=? 90)%N)
     || ((192 <=? n)%N && (n <=? 222)%N && negb (n =? 215)%N)
  then ascii_of_N (n + 32) else c.

(** [s.toLowerCase()] *)
Fixpoint toLowerCase (s : string) : string :=
  match s with
  | EmptyString => EmptyString
  | String c s' => String (lowerUnit c) (toLowerCase s')
  end.

(** A string is truthy when it is not empty. *)
Definition truthy (s : string) : bool :=
  match s with EmptyString => false | String _ _ => true end.

Definition first (s : string) : option ascii :=
  match s with EmptyString => None | String c _ => Some c end.

Fixpoint last (s : string) : option ascii :=
  match s with
  | EmptyString => None
  | String c EmptyString => Some c
  | String _ s' => last s'
  end.

Fixpoint all (p : ascii -> bool) (s : string) : bool :=
  match s with
  | EmptyString => true
  | String c s' => p c && all p s'
  end.

End JsString.

(** ** The Add-Bookmark form *)

Module AddBookmarkForm.
Import JsString.

(** What [fetch] and [response.text()] can do in [generateSummary]. *)
Inductive TextOutcome :=
| TextResolves (body : string)
| TextRejects.

Inductive FetchOutcome :=
| FetchRejects
| FetchResolves (ok : bool) (text : TextOutcome).

(** A computation that returns or throws. *)
Inductive Completion (A : Type) :=
| Returns (a : A)
| Throws.
Arguments Returns {A} a.
Arguments Throws {A}.

Definition bind {A B} (m : Completion A) (k : A -> Completion B) : Completion B :=
  match m with Returns a => k a | Throws => Throws end.

Definition tryCatch {A} (body : Completion A) (handler : Completion A) : Completion A :=
  match body with Returns a => Returns a | Throws => handler end.

Definition placeholder : string := "Summary temporarily unavailable.".
Definition marker : string := "...".

Definition awaitFetch (o : FetchOutcome) : Completion (bool * TextOutcome) :=
  match o with
  | FetchRejects => Throws
  | FetchResolves ok t => Returns (ok, t)
  end.

Definition awaitText (t : TextOutcome) : Completion string :=
  match t with
  | TextResolves body => Returns body
  | TextRejects => Throws
  end.

(** [generateSummary(url)]: the url only selects the network outcome. *)
Definition generateSummary (net : FetchOutcome) : Completion string :=
  tryCatch
    (bind (awaitFetch net) (fun response =>
       if negb (fst response) then Returns placeholder
       else
         bind (awaitText (snd response)) (fun summary =>
           Returns (if (500 <? String.length summary)%nat
                    then substring0 500 summary +:+ marker
                    else summary))))
    (Returns placeholder).

(** The row handed to [insert] in [handleSubmit]. *)
Record InsertRow := {
  row_user_id : string;
  row_url : string;
  row_title : string;
  row_summary : option string;
  row_tags : list string;
  row_favicon_url : string
}.

(** [formData.tags.split(',').map(tag => tag.trim()).filter(tag => tag.length > 0)] *)
Definition parseTags (input : string) : list string :=
  List.filter (fun tag => (0 <? String.length tag)%nat)
              (List.map (fun tag => trim tag) (split_comma input)).

(** [summary ? summary.substring(0, 1000) : null] *)
Definition storedSummary (summary : option string) : option string :=
  match summary with
  | Some s => if truthy s then Some (substring0 1000 s) else None
  | None => None
  end.

(** The object literal passed to [insert]: [href], [protocol] and
    [hostname] are the parts of the parsed URL. *)
Definition insertRow (user_id href protocol hostname title : string)
    (summary : option string) (tagsInput : string) : InsertRow :=
  {| row_user_id := user_id;
     row_url := href;
     row_title := title;
     row_summary := storedSummary summary;
     row_tags := parseTags tagsInput;
     row_favicon_url := protocol +:+ "//" +:+ hostname +:+ "/favicon.ico" |}.

End AddBookmarkForm.

(** ** The bookmark grid *)

Module BookmarkGrid.
Import JsString.

Record Bookmark := {
  id : string;
  url : string;
  title : string;
  favicon_url : option string;
  summary : option string;
  tags : list string;
  created_at : string;
  position : Z
}.

(** A row of the [bookmarks] table as [select('*')] returns it: [position]
    may still be null. *)
Record Row := {
  r_id : string;
  r_url : string;
  r_title : string;
  r_favicon_url : option string;
  r_summary : option string;
  r_tags : list string;
  r_created_at : string;
  r_position : option Z
}.

(** [{ ...bookmark, position: p }] *)
Definition setPosition (bookmark : Bookmark) (p : Z) : Bookmark :=
  {| id := id bookmark; url := url bookmark; title := title bookmark;
     favicon_url := favicon_url bookmark; summary := summary bookmark;
     tags := tags bookmark; created_at := created_at bookmark;
     position := p |}.

(** [{ ...bookmark, position: bookmark.position ?? index }] *)
Definition withOrder (index : nat) (bookmark : Row) : Bookmark :=
  {| id := r_id bookmark; url := r_url bookmark; title := r_title bookmark;
     favicon_url := r_favicon_url bookmark; summary := r_summary bookmark;
     tags := r_tags bookmark; created_at := r_created_at bookmark;
     position := match r_position bookmark with
                 | Some p => p
                 | None => Z.of_nat index
                 end |}.

(** [(data || []).map((bookmark, index) => ...)] in [fetchBookmarks]. *)
Definition bookmarksWithOrder (data : option (list Row)) : list Bookmark :=
  imap withOrder (match data with Some rows => rows | None => [] end).

(** *** Filtering *)

(** [bookmark.tags.includes(tag)] *)
Definition arrayIncludes (arr : list string) (x : string) : bool :=
  existsb (String.eqb x) arr.

(** The callback of the search filter. *)
Definition matchesSearch (searchTerm : string) (bookmark : Bookmark) : bool :=
  includes (toLowerCase (title bookmark)) (toLowerCase searchTerm)
  || includes (toLowerCase (url bookmark)) (toLowerCase searchTerm)
  || match summary bookmark with
     | Some s => includes (toLowerCase s) (toLowerCase searchTerm)
     | None => false
     end.

(** The callback of the tag filter: [selectedTags.some(tag => ...)]. *)
Definition matchesTags (selectedTags : list string) (bookmark : Bookmark) : bool :=
  existsb (fun tag => arrayIncludes (tags bookmark) tag) selectedTags.

(** The body of the filtering effect: the value given to
    [setFilteredBookmarks]. *)
Definition filterBookmarks (bookmarks : list Bookmark) (searchTerm : string)
    (selectedTags : list string) : list Bookmark :=
  let filtered := bookmarks in
  let filtered :=
    if truthy searchTerm then List.filter (matchesSearch searchTerm) filtered
    else filtered in
  let filtered :=
    if (0 <? length selectedTags)%nat
    then List.filter (matchesTags selectedTags) filtered
    else filtered in
  filtered.

(** *** Component state, store calls and notifications *)

Record State := {
  user : option string;              (* [user?.id] *)
  bookmarks : list Bookmark;
  filteredBookmarks : list Bookmark;
  searchTerm : string;
  selectedTags : list string
}.

Definition setBookmarks (st : State) (l : list Bookmark) : State :=
  {| user := user st; bookmarks := l; filteredBookmarks := filteredBookmarks st;
     searchTerm := searchTerm st; selectedTags := selectedTags st |}.

Definition setFilteredBookmarks (st : State) (l : list Bookmark) : State :=
  {| user := user st; bookmarks := bookmarks st; filteredBookmarks := l;
     searchTerm := searchTerm st; selectedTags := selectedTags st |}.

(** The filtering effect, run after a render in which [bookmarks],
    [searchTerm] or [selectedTags] changed. *)
Definition filterEffect (st : State) : State :=
  setFilteredBookmarks st
    (filterBookmarks (bookmarks st) (searchTerm st) (selectedTags st)).

(** A request sent to the [bookmarks] table, with its [eq] filters. *)
Inductive StoreCall :=
| Delete (eq_id : string) (eq_user_id : option string)
| Update (set_position : Z) (eq_id : string) (eq_user_id : option string).

(** What awaiting a request gives: a result object whose [error] field is
    null or not, or a rejection. *)
Inductive Answer :=
| Resolves (error : option string)
| Rejects (message : string).

Record Toast := {
  toast_title : string;
  toast_description : string;
  destructive : bool
}.

(** What running a handler leaves behind. *)
Record Outcome := {
  state : State;
  calls : list StoreCall;
  toasts : list Toast
}.

(** [const { error } = await ...; if (error) throw error;] *)
Definition awaitChecked (a : Answer) : option string :=
  match a with
  | Resolves None => None
  | Resolves (Some message) => Some message
  | Rejects message => Some message
  end.

(** [await ...;] with the result dropped: only a rejection throws. *)
Definition awaitUnchecked (a : Answer) : option string :=
  match a with
  | Resolves _ => None
  | Rejects message => Some message
  end.

(** *** Delete *)

(** The callback [b => b.id !== id]. *)
Definition keeps (id0 : string) (b : Bookmark) : bool :=
  negb (String.eqb (id b) id0).

Definition handleDeleteBookmark (st : State) (id0 : string) (answer : Answer)
    : Outcome :=
  let call := Delete id0 (user st) in
  match awaitChecked answer with
  | None =>
      {| state := setBookmarks st
                    (List.filter (keeps id0) (bookmarks st));
         calls := [call];
         toasts := [ {| toast_title := "Bookmark deleted";
                        toast_description :=
                          "The bookmark has been removed from your collection.";
                        destructive := false |} ] |}
  | Some message =>
      {| state := st;
         calls := [call];
         toasts := [ {| toast_title := "Error deleting bookmark";
                        toast_description := message;
                        destructive := true |} ] |}
  end.

(** *** Reorder *)

(** [arr.findIndex(p)]: the first index whose element satisfies [p], or -1. *)
Fixpoint findIndexFrom {A} (p : A -> bool) (arr : list A) (i : Z) : Z :=
  match arr with
  | [] => -1
  | x :: arr' => if p x then i else findIndexFrom p arr' (i + 1)
  end.

Definition findIndex {A} (p : A -> bool) (arr : list A) : Z :=
  findIndexFrom p arr 0.

(** The start index [splice] works with: a negative [start] counts from the
    end, and the result is clamped to [0 .. len]. *)
Definition spliceStart (len : nat) (start : Z) : nat :=
  if start <? 0 then Z.to_nat (Z.max (Z.of_nat len + start) 0)
  else Nat.min (Z.to_nat start) len.

(** [arr.splice(start, 1)]: the removed elements and the array left. *)
Definition spliceOut {A} (arr : list A) (start : Z) : list A * list A :=
  let s := spliceStart (length arr) start in
  (take 1 (drop s arr), take s arr ++ drop (S s) arr).

(** [arr.splice(start, 0, item)]: the array after the insertion. *)
Definition spliceIn {A} (arr : list A) (start : Z) (item : A) : list A :=
  let s := spliceStart (length arr) start in
  take s arr ++ item :: drop s arr.

(** [arrayMove(array, from, to)] of [@dnd-kit/sortable]:
<<
    const newArray = array.slice();
    newArray.splice(to < 0 ? newArray.length + to : to, 0,
                    newArray.splice(from, 1)[0]);
    return newArray;
>>
    The first argument of the outer [splice] is evaluated before the inner
    [splice] shortens the array.  [None] stands for the one case the element
    type cannot express: nothing was removed, so [undefined] is inserted. *)
Definition arrayMove {A} (array : list A) (from to : Z) : option (list A) :=
  let newArray := array in
  let start := if to <? 0 then Z.of_nat (length newArray) + to else to in
  let '(removed, newArray) := spliceOut newArray from in
  match removed with
  | item :: _ => Some (spliceIn newArray start item)
  | [] => None
  end.

(** [arr.sort((a, b) => a.position - b.position)]: [Array.prototype.sort]
    is stable, so the result is the one a stable insertion sort gives. *)
Fixpoint insertByPosition (x : Bookmark) (sorted : list Bookmark) : list Bookmark :=
  match sorted with
  | [] => [x]
  | y :: sorted' =>
      if position y <? position x then y :: insertByPosition x sorted'
      else x :: y :: sorted'
  end.

Fixpoint sortByPosition (arr : list Bookmark) : list Bookmark :=
  match arr with
  | [] => []
  | x :: arr' => insertByPosition x (sortByPosition arr')
  end.

(** [arr.forEach((x, index) => ...)] threading the state the callback
    mutates. *)
Fixpoint forEachFrom {A St} (f : St -> A -> nat -> St) (arr : list A)
    (index : nat) (s : St) : St :=
  match arr with
  | [] => s
  | x :: arr' => forEachFrom f arr' (S index) (f s x index)
  end.

(** The callback of [newOrderedBookmarks.forEach] in the [setBookmarks]
    updater, acting on the copy [updated]. *)
Definition reconcileStep (updated : list Bookmark) (bookmark : Bookmark)
    (index : nat) : list Bookmark :=
  let bookmarkIndex := findIndex (fun b => String.eqb (id b) (id bookmark)) updated in
  if negb (bookmarkIndex =? -1)
  then <[Z.to_nat bookmarkIndex := setPosition bookmark (Z.of_nat index)]> updated
  else updated.

(** The [setBookmarks] updater after the persistence loop. *)
Definition reconcile (prev newOrderedBookmarks : list Bookmark) : list Bookmark :=
  let updated := prev in
  let updated := forEachFrom reconcileStep newOrderedBookmarks 0 updated in
  sortByPosition updated.

(** [newOrderedBookmarks.map((bookmark, index) => ({ id, position: index }))] *)
Definition updatesOf (newOrderedBookmarks : list Bookmark) : list (string * Z) :=
  imap (fun index bookmark => (id bookmark, Z.of_nat index)) newOrderedBookmarks.

Definition updateCall (owner : option string) (update : string * Z) : StoreCall :=
  Update (snd update) (fst update) owner.

(** [for (const update of updates) { await ...update(...) }]: the requests
    sent, in order, and the message of the rejection that ended the loop, if
    one did.  [answers k] is what the store does with the [k]-th request of
    this loop. *)
Fixpoint persistFrom (owner : option string) (updates : list (string * Z))
    (answers : nat -> Answer) (k : nat) : list StoreCall * option string :=
  match updates with
  | [] => ([], None)
  | update :: updates' =>
      match awaitUnchecked (answers k) with
      | Some message => ([updateCall owner update], Some message)
      | None =>
          let '(sent, thrown) := persistFrom owner updates' answers (S k) in
          (updateCall owner update :: sent, thrown)
      end
  end.

Record DragEndEvent := {
  active_id : string;
  over_id : option string            (* [over?.id] *)
}.

(** [item.id === over?.id] *)
Definition isOver (event : DragEndEvent) (item : Bookmark) : bool :=
  match over_id event with
  | Some o => String.eqb (id item) o
  | None => false
  end.

(** [handleDragEnd(event)].  The handler runs to its end with no other
    handler in between, so [prev] in the updater is the [bookmarks] the
    handler started with.  [None] only when [arrayMove] is. *)
Definition handleDragEnd (st : State) (event : DragEndEvent)
    (answers : nat -> Answer) : option Outcome :=
  if negb (bool_decide (Some (active_id event) = over_id event)) then
    let oldIndex :=
      findIndex (fun item => String.eqb (id item) (active_id event))
                (filteredBookmarks st) in
    let newIndex := findIndex (isOver event) (filteredBookmarks st) in
    match arrayMove (filteredBookmarks st) oldIndex newIndex with
    | None => None
    | Some newOrderedBookmarks =>
        let st := setFilteredBookmarks st newOrderedBookmarks in
        let updates := updatesOf newOrderedBookmarks in
        match persistFrom (user st) updates answers 0 with
        | (sent, None) =>
            Some {| state := setBookmarks st
                               (reconcile (bookmarks st) newOrderedBookmarks);
                    calls := sent;
                    toasts := [] |}
        | (sent, Some message) =>
            match arrayMove newOrderedBookmarks newIndex oldIndex with
            | None => None
            | Some reverted =>
                Some {| state := setFilteredBookmarks st reverted;
                        calls := sent;
                        toasts := [ {| toast_title := "Error updating order";
                                       toast_description := message;
                                       destructive := true |} ] |}
            end
        end
    end
  else Some {| state := st; calls := []; toasts := [] |}.

End BookmarkGrid.

(** ** Vocabulary of the specification *)

Module Spec.
Import JsString.

(** [sub] occurs in [s] as a substring. *)
Definition substringOf (sub s : string) : Prop :=
  exists pre post, s = pre +:+ sub +:+ post.

(** A case-insensitive substring match of [needle] in [field]. *)
Definition matchesIgnoringCase (needle field : string) : Prop :=
  substringOf (toLowerCase needle) (toLowerCase field).

Definition noComma (s : string) : Prop :=
  all (fun c => negb (Ascii.eqb c ","%char)) s = true.

Definition noOuterWhiteSpace (s : string) : Prop :=
  (forall c, first s = Some c -> isWhiteSpace c = false) /\
  (forall c, last s = Some c -> isWhiteSpace c = false).

(** [t] is [s] with the white space around it removed. *)
Definition trimmedOf (s t : string) : Prop :=
  (exists pre post,
      s = pre +:+ t +:+ post
      /\ all isWhiteSpace pre = true /\ all isWhiteSpace post = true)
  /\ noOuterWhiteSpace t.

(** The network outcomes on which [generateSummary] has no summary text. *)
Definition summaryFails (net : AddBookmarkForm.FetchOutcome) : Prop :=
  match net with
  | AddBookmarkForm.FetchRejects => True
  | AddBookmarkForm.FetchResolves ok text =>
      ok = false \/ text = AddBookmarkForm.TextRejects
  end.

Import BookmarkGrid.

(** The list [l] with the element at [i] taken out and put back at [j]. *)
Definition moved {A} (l : list A) (i j : nat) : list A :=
  match l !! i with
  | Some x => take j (delete i l) ++ x :: drop j (delete i l)
  | None => l
  end.

(** The index a [findIndex] result denotes in [arrayMove]: -1 is the last. *)
Definition slot (len : nat) (index : Z) : nat :=
  if index <? 0 then (len - 1)%nat else Z.to_nat index.

(** The bookmarks of [l], each with its index in [l] as position. *)
Definition renumbered (l : list Bookmark) : list Bookmark :=
  imap (fun index b => setPosition b (Z.of_nat index)) l.

(** What the reconcile callback, run for [b] at [index], makes of a
    bookmark [u] of the working list. *)
Definition assign1 (b : Bookmark) (index : nat) (u : Bookmark) : Bookmark :=
  if String.eqb (id u) (id b) then setPosition b (Z.of_nat index) else u.

(** The same for the whole [forEach] over [l], starting at [index]. *)
Fixpoint assign (l : list Bookmark) (index : nat) (u : Bookmark) : Bookmark :=
  match l with
  | [] => u
  | b :: l' => assign l' (S index) (assign1 b index u)
  end.

Definition byPosition (a b : Bookmark) : Prop := position a <= position b.

(** Positions 0, 1, ..., n-1. *)
Definition dense (n : nat) : list Z := Z.of_nat <$> seq 0 n.

(** The requests the reorder sends for the order [l]: one per item. *)
Definition requestsFor (owner : option string) (l : list Bookmark) : list StoreCall :=
  imap (fun index b => Update (Z.of_nat index) (id b) owner) l.

(** Following the specification's words: one request per item of [l] whose
    position differs from its index in [l], none for the others. *)
Definition requestsForChanged (owner : option string) (l : list Bookmark)
    : list StoreCall :=
  List.map (fun ib => Update (Z.of_nat (fst ib)) (id (snd ib)) owner)
    (List.filter (fun ib => negb (position (snd ib) =? Z.of_nat (fst ib)))
                 (imap (fun index b => (index, b)) l)).

(** The answers in which no request before the [k]-th is rejected. *)
Definition noneRejectedBefore (answers : nat -> Answer) (k : nat) : Prop :=
  forall j, (j < k)%nat -> awaitUnchecked (answers j) = None.

(** [oldIndex] and [newIndex] of [handleDragEnd]. *)
Definition oldIndexOf (st : State) (event : DragEndEvent) : Z :=
  findIndex (fun item => String.eqb (id item) (active_id event))
            (filteredBookmarks st).

Definition newIndexOf (st : State) (event : DragEndEvent) : Z :=
  findIndex (isOver event) (filteredBookmarks st).

Definition errorToast (title message : string) : Toast :=
  {| toast_title := title; toast_description := message; destructive := true |}.

Definition mkBookmark (i : string) (p : Z) : Bookmark :=
  {| id := i; url := "https://example.com/" +:+ i; title := "Bookmark " +:+ i;
     favicon_url := None; summary := None; tags := []; created_at := "";
     position := p |}.

(** Scenario A: ids 1, 2, 3 at positions 0, 1, 2, nothing filtered out. *)
Definition scenarioA : State :=
  let l := [mkBookmark "1" 0; mkBookmark "2" 1; mkBookmark "3" 2] in
  {| user := Some "owner"; bookmarks := l; filteredBookmarks := l;
     searchTerm := ""; selectedTags := [] |}.

Definition rowAt (p : option Z) : Row :=
  {| r_id := "r"; r_url := "https://example.com/"; r_title := "Example";
     r_favicon_url := None; r_summary := None; r_tags := [];
     r_created_at := ""; r_position := p |}.

(** Scenario D: positions [null, 1, 0] in store order. *)
Definition scenarioD : list Row := [rowAt None; rowAt (Some 1); rowAt (Some 0)].

End Spec.

(** ** The rest of the bookmark grid: tag toggling and loading *)

Module Grid.
Import JsString BookmarkGrid.

(** [toggleTag(tag)]: the updater given to [setSelectedTags]. *)
Definition toggleTag (prev : list string) (tag : string) : list string :=
  if arrayIncludes prev tag
  then List.filter (fun t => negb (String.eqb t tag)) prev
  else prev ++ [tag].

(** [tags.add(tag)] on a [Set], which keeps insertion order. *)
Definition setAdd (set : list string) (x : string) : list string :=
  if arrayIncludes set x then set else set ++ [x].

(** The two nested [forEach] loops filling the [Set] of tags. *)
Definition collectTags (data : list Row) : list string :=
  fold_left (fun set bookmark => fold_left setAdd (r_tags bookmark) set) data [].

(** [arr.sort()] on strings: ascending by code units, stable. *)
Fixpoint insertString (x : string) (sorted : list string) : list string :=
  match sorted with
  | [] => [x]
  | y :: sorted' =>
      if String.ltb y x then y :: insertString x sorted' else x :: y :: sorted'
  end.

Fixpoint sortStrings (arr : list string) : list string :=
  match arr with
  | [] => []
  | x :: arr' => insertString x (sortStrings arr')
  end.

(** The component state with the two fields the claims do not need. *)
Record Grid := {
  core : State;
  allTags : list string;
  isLoading : bool
}.

(** [select('*').eq('user_id', user.id).order('position', { ascending: true })] *)
Record Select := {
  select_user_id : string;
  order_column : string;
  ascending : bool
}.

(** What awaiting the select gives. *)
Inductive SelectAnswer :=
| SelectResolves (data : option (list Row)) (error : option string)
| SelectRejects (message : string).

Record FetchRun := {
  grid : Grid;
  queries : list Select;
  notices : list Toast
}.

(** [const { data, error } = await ...; if (error) throw error;] *)
Definition awaitSelect (a : SelectAnswer) : option (list Row) + string :=
  match a with
  | SelectResolves data None => inl data
  | SelectResolves _ (Some message) => inr message
  | SelectRejects message => inr message
  end.

(** [fetchBookmarks()] *)
Definition fetchBookmarks (g : Grid) (answer : SelectAnswer) : FetchRun :=
  match user (core g) with
  | None => {| grid := g; queries := []; notices := [] |}
  | Some uid =>
      let query := {| select_user_id := uid; order_column := "position";
                      ascending := true |} in
      match awaitSelect answer with
      | inl data =>
          {| grid := {| core := setBookmarks (core g) (bookmarksWithOrder data);
                        allTags :=
                          sortStrings
                            (collectTags (match data with
                                          | Some rows => rows
                                          | None => []
                                          end));
                        isLoading := false |};
             queries := [query];
             notices := [] |}
      | inr message =>
          {| grid := {| core := core g; allTags := allTags g; isLoading := false |};
             queries := [query];
             notices := [ {| toast_title := "Error loading bookmarks";
                             toast_description := message;
                             destructive := true |} ] |}
      end
  end.

End Grid.

(** ** The bookmark card *)

Module Card.
Import JsString BookmarkGrid.

(** The parts of a [URL] object the components read. *)
Record ParsedURL := {
  href : string;
  protocol : string;
  hostname : string
}.

(** [new URL(s)]: the parsed URL, or the message of the [TypeError]. *)
Inductive URLResult :=
| ValidURL (u : ParsedURL)
| InvalidURL (message : string).

(** [`${url.protocol}//${url.hostname}/favicon.ico`] *)
Definition faviconOf (u : ParsedURL) : string :=
  protocol u +:+ "//" +:+ hostname u +:+ "/favicon.ico".

(** [getFaviconUrl()], for a given URL parser. *)
Definition getFaviconUrl (parseURL : string -> URLResult) (bookmark : Bookmark)
    : option string :=
  let derived :=
    match parseURL (url bookmark) with
    | ValidURL u => Some (faviconOf u)
    | InvalidURL _ => None
    end in
  match favicon_url bookmark with
  | Some f => if truthy f then Some f else derived
  | None => derived
  end.

(** [bookmark.tags.slice(0, 3)]: the tags shown as badges. *)
Definition shownTags (bookmark : Bookmark) : list string := take 3 (tags bookmark).

(** The number on the [+n] badge, when [bookmark.tags.length > 3]. *)
Definition moreTags (bookmark : Bookmark) : option nat :=
  if (3 <? length (tags bookmark))%nat
  then Some (length (tags bookmark) - 3)%nat else None.

End Card.

(** ** The rest of the Add-Bookmark form: metadata and submission *)

Module Submit.
Import JsString AddBookmarkForm BookmarkGrid Card.

(** What the parsed page holds: the text of its [title] element and the
    [content] of its [og:title] meta tag, each absent when the element is. *)
Record Doc := {
  titleText : option string;
  ogTitle : option string
}.

(** The proxy request of [extractMetadata]: [fetch] or [response.json()]
    rejects, or [data.contents] is falsy ([None]) or a page. *)
Inductive ProxyOutcome :=
| ProxyRejects
| ProxyData (contents : option Doc).

Record FormData := {
  fd_url : string;
  fd_tags : string
}.

Record Form := {
  form_user : option string;         (* [user.id] of a signed-in user *)
  formData : FormData;
  form_isLoading : bool
}.

Record Network := {
  proxy : ProxyOutcome;
  jina : FetchOutcome;
  insertAnswer : Answer
}.

(** What [handleSubmit] leaves behind; [added] counts the calls of
    [onBookmarkAdded], each of which increments [refreshTrigger]. *)
Record SubmitRun := {
  form : Form;
  inserts : list InsertRow;
  shown : list Toast;
  added : nat
}.

Definition setLoading (f : Form) (b : bool) : Form :=
  {| form_user := form_user f; formData := formData f; form_isLoading := b |}.

Definition defaultDescription : string := "Please check the URL and try again.".

Section WithURL.
Variable parseURL : string -> URLResult.

(** [new URL(url).hostname] *)
Definition hostnameOf (url : string) : Completion string :=
  match parseURL url with
  | ValidURL u => Returns (hostname u)
  | InvalidURL _ => Throws
  end.

(** [a || b] where [a] is a string or undefined. *)
Definition orElse (a : option string) (b : Completion string) : Completion string :=
  match a with
  | Some s => if truthy s then Returns s else b
  | None => b
  end.

(** [extractMetadata(url)]: the title it returns. *)
Definition extractMetadata (url : string) (net : ProxyOutcome) : Completion string :=
  bind
    (tryCatch
       (match net with
        | ProxyRejects => Throws
        | ProxyData (Some doc) =>
            bind (orElse (option_map trim (titleText doc))
                         (orElse (ogTitle doc) (hostnameOf url)))
                 (fun title => Returns (Some title))
        | ProxyData None => Returns None
        end)
       (Returns None))
    (fun found =>
       match found with
       | Some title => Returns title
       | None => tryCatch (hostnameOf url) (Returns url)
       end).

(** [handleSubmit(e)].  [None] stands for a rejected [Promise.all], for which
    the model has no error message. *)
Definition handleSubmit (f : Form) (net : Network) : option SubmitRun :=
  let untouched := {| form := f; inserts := []; shown := []; added := 0 |} in
  let failed (message : string) (sent : list InsertRow) :=
    {| form := setLoading f false;
       inserts := sent;
       shown := [ {| toast_title := "Error saving bookmark";
                     toast_description :=
                       if truthy message then message else defaultDescription;
                     destructive := true |} ];
       added := 0 |} in
  match form_user f with
  | None => Some untouched
  | Some uid =>
      if negb (truthy (trim (fd_url (formData f)))) then Some untouched
      else
        match parseURL (trim (fd_url (formData f))) with
        | InvalidURL message => Some (failed message [])
        | ValidURL url =>
            match extractMetadata (href url) (proxy net),
                  generateSummary (jina net) with
            | Returns title, Returns summary =>
                let row := insertRow uid (href url) (protocol url) (hostname url)
                                     title (Some summary) (fd_tags (formData f)) in
                match awaitChecked (insertAnswer net) with
                | None =>
                    Some {| form := {| form_user := form_user f;
                                       formData := {| fd_url := EmptyString;
                                                      fd_tags := EmptyString |};
                                       form_isLoading := false |};
                            inserts := [row];
                            shown := [ {| toast_title := "Bookmark saved!";
                                          toast_description :=
                                            "Your link has been saved and summarized.";
                                          destructive := false |} ];
                            added := 1 |}
                | Some message => Some (failed message [row])
                end
            | _, _ => None
            end
        end
  end.

End WithURL.

End Submit.

(** ** Vocabulary for the form and the grid's loading *)

Module FormSpec.
Import JsString AddBookmarkForm BookmarkGrid Card Submit.

(** A string-or-undefined operand of [||], kept only when truthy. *)
Definition truthyOnly (a : option string) : option string :=
  match a with
  | Some s => if truthy s then Some s else None
  | None => None
  end.

(** The title the fetched page offers: its trimmed [title] text, or else its
    [og:title]; nothing when the proxy gave no page. *)
Definition pageTitle (net : ProxyOutcome) : option string :=
  match net with
  | ProxyData (Some doc) =>
      match truthyOnly (option_map trim (titleText doc)) with
      | Some t => Some t
      | None => truthyOnly (ogTitle doc)
      end
  | _ => None
  end.

(** The title used when the page offers none: the hostname, or the raw url
    when it does not parse. *)
Definition fallbackTitle (parseURL : string -> URLResult) (url : string) : string :=
  match parseURL url with
  | ValidURL u => hostname u
  | InvalidURL _ => url
  end.

Definition strictlyAscending (a b : string) : Prop := String.ltb a b = true.

Definition untouched (f : Form) : SubmitRun :=
  {| form := f; inserts := []; shown := []; added := 0 |}.

Definition clearedForm : FormData :=
  {| fd_url := EmptyString; fd_tags := EmptyString |}.

End FormSpec.

Import JsString AddBookmarkForm BookmarkGrid Spec Grid Card Submit FormSpec.

(** ** Strings *)

Section StringFacts.

Lemma append_nil (b : string) : EmptyString +:+ b = b.
Proof. reflexivity. Qed.

Lemma append_cons (c : ascii) (a b : string) :
  String c a +:+ b = String c (a +:+ b).
Proof. reflexivity. Qed.

Lemma length_append (a b : string) :
  String.length (a +:+ b) = (String.length a + String.length b)%nat.
Proof.
  induction a as [|c a IH]; [reflexivity|].
  rewrite append_cons; simpl. now rewrite IH.
Qed.

Lemma append_empty_r (a : string) : a +:+ EmptyString = a.
Proof.
  induction a as [|c a IH]; [reflexivity|]. now rewrite append_cons, IH.
Qed.

Lemma append_assoc (a b c : string) : (a +:+ b) +:+ c = a +:+ b +:+ c.
Proof.
  induction a as [|x a IH]; [reflexivity|]. now rewrite !append_cons, IH.
Qed.

Lemma substring0_cons (n : nat) (c : ascii) (s : string) :
  substring0 (S n) (String c s) = String c (substring0 n s).
Proof. reflexivity. Qed.

Lemma substring0_zero (s : string) : substring0 0 s = EmptyString.
Proof. destruct s; reflexivity. Qed.

Lemma length_substring0 (n : nat) (s : string) :
  String.length (substring0 n s) = Nat.min n (String.length s).
Proof.
  revert n; induction s as [|c s IH]; intros [|n]; try reflexivity.
  rewrite substring0_cons; simpl. now rewrite IH.
Qed.

(** [substring(0, n)] keeps the start of the string. *)
Lemma substring0_prefix (n : nat) (s : string) :
  exists rest, s = substring0 n s +:+ rest.
Proof.
  revert n; induction s as [|c s IH]; intros [|n].
  - now exists EmptyString.
  - now exists EmptyString.
  - rewrite substring0_zero. now exists (String c s).
  - destruct (IH n) as [rest Hrest]. exists rest.
    rewrite substring0_cons, append_cons. now rewrite <- Hrest.
Qed.

Lemma truthy_length (s : string) : truthy s = (0 <? String.length s)%nat.
Proof. destruct s; reflexivity. Qed.

(** [startsWith] and [includes] decide the prefix and substring relations. *)
Lemma startsWith_spec (p s : string) :
  startsWith p s = true <-> exists post, s = p +:+ post.
Proof.
  revert s; induction p as [|a p IH]; intros s; simpl.
  - split; [intros _; now exists s | reflexivity].
  - destruct s as [|b s].
    + split; [discriminate | intros [post H]; discriminate].
    + rewrite andb_true_iff, IH, Ascii.eqb_eq. split.
      * intros [-> [post ->]]. now exists post.
      * intros [post H]. rewrite append_cons in H. injection H as -> ->.
        split; [reflexivity | now exists post].
Qed.

Lemma includes_spec (s sub : string) :
  includes s sub = true <-> substringOf sub s.
Proof.
  unfold substringOf. induction s as [|c s IH]; simpl.
  - rewrite orb_false_r, startsWith_spec. split.
    + intros [post H]. now exists EmptyString, post.
    + intros [[|x pre] [post H]]; [now exists post | discriminate].
  - rewrite orb_true_iff, startsWith_spec, IH. split.
    + intros [[post H] | [pre [post H]]].
      * now exists EmptyString, post.
      * exists (String c pre), post. now rewrite append_cons, H.
    + intros [[|x pre] [post H]].
      * left. now exists post.
      * right. rewrite append_cons in H. injection H as -> ->. now exists pre, post.
Qed.

Lemma split_comma_cons (s : string) :
  exists seg rest, split_comma s = seg :: rest.
Proof.
  induction s as [|c s [seg [rest IH]]]; simpl; [now eexists _, _|].
  destruct (Ascii.eqb c ","); [now eexists _, _|]. rewrite IH. now eexists _, _.
Qed.

(** Joining the segments with commas gives the input back. *)
Lemma concat_split_comma (s : string) :
  String.concat "," (split_comma s) = s.
Proof.
  induction s as [|c s IH]; [reflexivity|]. simpl split_comma.
  destruct (Ascii.eqb_spec c ","%char) as [->|Hc].
  - destruct (split_comma_cons s) as [seg [rest E]]. rewrite E in *.
    simpl String.concat in *. now rewrite IH.
  - destruct (split_comma_cons s) as [seg [rest E]]. rewrite E in *.
    destruct rest as [|seg' rest]; simpl String.concat in *.
    + now rewrite IH.
    + now rewrite append_cons, IH.
Qed.

Lemma split_comma_noComma (s : string) : Forall noComma (split_comma s).
Proof.
  induction s as [|c s IH]; simpl.
  - now repeat constructor.
  - destruct (Ascii.eqb c ",") eqn:Hc.
    + constructor; [reflexivity | exact IH].
    + destruct (split_comma_cons s) as [seg [rest E]]. rewrite E in *.
      inversion IH as [|? ? Hseg Hrest]; subst. constructor; [|exact Hrest].
      unfold noComma in *; simpl. now rewrite Hc, Hseg.
Qed.

Lemma trimStart_spec (s : string) :
  (exists pre, s = pre +:+ trimStart s /\ all isWhiteSpace pre = true)
  /\ (forall c, first (trimStart s) = Some c -> isWhiteSpace c = false).
Proof.
  induction s as [|c s [[pre [Hs Hpre]] Hfirst]]; simpl.
  - split; [now exists EmptyString | discriminate].
  - destruct (isWhiteSpace c) eqn:Hc.
    + split; [|exact Hfirst]. exists (String c pre).
      rewrite append_cons, <- Hs. simpl. now rewrite Hc, Hpre.
    + split; [now exists EmptyString|]. simpl. intros ? [= <-]. exact Hc.
Qed.

Lemma trimEnd_spec (s : string) :
  (exists post, s = trimEnd s +:+ post /\ all isWhiteSpace post = true)
  /\ (forall c, last (trimEnd s) = Some c -> isWhiteSpace c = false).
Proof.
  induction s as [|c s [[post [Hs Hpost]] Hlast]]; simpl.
  - split; [now exists EmptyString | discriminate].
  - destruct (trimEnd s) as [|d r] eqn:Hr.
    + rewrite append_nil in Hs. subst post.
      destruct (isWhiteSpace c) eqn:Hc.
      * split; [|discriminate]. exists (String c s).
        rewrite append_nil. simpl. now rewrite Hc, Hpost.
      * split; [|simpl; intros ? [= <-]; exact Hc].
        exists s. now rewrite append_cons, append_nil.
    + split; [|exact Hlast]. exists post. now rewrite append_cons, <- Hs.
Qed.

(** [trimEnd] keeps the first code unit of what it returns. *)
Lemma first_trimEnd (s : string) (c : ascii) :
  first (trimEnd s) = Some c -> first s = Some c.
Proof.
  destruct (trimEnd_spec s) as [[post [Hs _]] _].
  destruct (trimEnd s) as [|d r]; [discriminate|].
  rewrite append_cons in Hs. rewrite Hs. auto.
Qed.

Lemma trim_spec (s : string) : trimmedOf s (trim s).
Proof.
  unfold trimmedOf, trim.
  destruct (trimStart_spec s) as [[pre [Hs Hpre]] Hfirst].
  destruct (trimEnd_spec (trimStart s)) as [[post [Ht Hpost]] Hlast].
  split.
  - exists pre, post. split; [|now split].
    rewrite Hs at 1. rewrite Ht at 1. reflexivity.
  - split; [|exact Hlast]. intros c Hc. apply Hfirst. now apply first_trimEnd.
Qed.

End StringFacts.

(** ** The Add-Bookmark form: summary and tags *)

Section FormTheorems.

Lemma generateSummary_failure (net : FetchOutcome) :
  summaryFails net -> generateSummary net = Returns placeholder.
Proof.
  destruct net as [|ok text]; simpl; [reflexivity|].
  intros [-> | ->]; [reflexivity|]. now destruct ok.
Qed.

Lemma generateSummary_success (body : string) :
  generateSummary (FetchResolves true (TextResolves body)) =
    Returns (if (500 <? String.length body)%nat
             then substring0 500 body +:+ marker else body).
Proof. reflexivity. Qed.

Lemma storedSummary_capped (summary : option string) (stored : string) :
  storedSummary summary = Some stored ->
  (String.length stored <= 1000)%nat
  /\ exists raw, summary = Some raw /\ stored = substring0 1000 raw.
Proof.
  destruct summary as [raw|]; simpl; [|discriminate].
  destruct (truthy raw); [|discriminate]. intros [= <-]. split.
  - rewrite length_substring0. lia.
  - now exists raw.
Qed.

(** C9.  [generateSummary] always returns a string and never throws.  On a
    failed fetch, a response that is not ok, or a body that cannot be read,
    it returns the fixed placeholder.  On success it returns the body when
    the body has at most 500 code units, and otherwise the first 500 code
    units of the body followed by the marker ["..."], 503 code units in
    all.  The summary written
    by [handleSubmit] is the first 1000 code units of what it was given, so
    it has at most 1000 code units. *)
Theorem summary_never_raises_and_is_capped (net : FetchOutcome) :
  (exists s, generateSummary net = Returns s)
  /\ (summaryFails net -> generateSummary net = Returns placeholder)
  /\ (forall body,
        net = FetchResolves true (TextResolves body) ->
        exists s,
          generateSummary net = Returns s
          /\ ((String.length body <= 500)%nat -> s = body)
          /\ ((500 < String.length body)%nat ->
              s = substring0 500 body +:+ marker
              /\ String.length (substring0 500 body) = 500%nat
              /\ String.length s = 503%nat
              /\ exists rest, body = substring0 500 body +:+ rest))
  /\ (forall user_id href protocol hostname title summary tagsInput stored,
        row_summary (insertRow user_id href protocol hostname title summary tagsInput)
          = Some stored ->
        (String.length stored <= 1000)%nat
        /\ exists raw, summary = Some raw /\ stored = substring0 1000 raw).
Proof.
  split; [|split; [|split]].
  - destruct net as [|[] [body|]]; simpl; eauto.
  - apply generateSummary_failure.
  - intros body ->. eexists. split; [apply generateSummary_success|].
    split; intros Hlen.
    + apply Nat.ltb_ge in Hlen. now rewrite Hlen.
    + pose proof Hlen as Hlt. apply Nat.ltb_lt in Hlt. rewrite Hlt.
      split; [reflexivity|]. split; [rewrite length_substring0; lia|].
      split; [rewrite length_append, length_substring0;
              change (String.length marker) with 3%nat; lia|].
      apply substring0_prefix.
  - intros. now apply storedSummary_capped.
Qed.

Lemma summary_never_raises_and_is_capped_witness :
  generateSummary (FetchResolves false TextRejects) = Returns placeholder.
Proof.
  apply (summary_never_raises_and_is_capped (FetchResolves false TextRejects)).
  simpl. left. reflexivity.
Defined.

Lemma nonempty_noOuter (tag : string) :
  (0 <? String.length tag)%nat = true -> tag <> EmptyString.
Proof. now destruct tag. Qed.

(** C10.  The tags written by [handleSubmit] are the comma-separated
    segments of the input (joined with commas they give the input back, and
    none holds a comma), each with the white space around it removed, with
    the empty ones dropped, in input order and with repetitions kept.  No
    stored tag is empty, and none starts or ends with white space. *)
Theorem stored_tags_are_trimmed_segments
    (user_id href protocol hostname title : string) (summary : option string)
    (input : string) :
  let segments := split_comma input in
  let stored :=
    row_tags (insertRow user_id href protocol hostname title summary input) in
  String.concat "," segments = input
  /\ Forall noComma segments
  /\ Forall (fun seg => trimmedOf seg (trim seg)) segments
  /\ stored = List.filter (fun tag => negb (String.eqb tag EmptyString))
                          (List.map trim segments)
  /\ Forall (fun tag => tag <> EmptyString /\ noOuterWhiteSpace tag) stored.
Proof.
  cbv zeta. split; [apply concat_split_comma|].
  split; [apply split_comma_noComma|].
  split; [apply Forall_forall; intros; apply trim_spec|].
  simpl row_tags. unfold parseTags. split.
  - apply filter_ext. intros tag. now destruct tag.
  - apply Forall_forall. intros tag Htag.
    apply list_elem_of_In, filter_In in Htag. destruct Htag as [Hin Hlen].
    split; [now apply nonempty_noOuter|].
    apply in_map_iff in Hin. destruct Hin as [seg [<- _]].
    apply trim_spec.
Qed.

Example parseTags_keeps_order_and_repetitions :
  parseTags " work, article ,,important,  ,work"
  = ["work"; "article"; "important"; "work"].
Proof. reflexivity. Qed.

End FormTheorems.

(** ** Fetch and normalise *)

Section FetchTheorems.

(** C6, as stated, fails on scenario D: the third record keeps its stored
    position 0 and is not given its index 2. *)
Lemma scenarioD_not_renumbered :
  List.map position (bookmarksWithOrder (Some scenarioD)) <> [0; 1; 2].
Proof. discriminate. Qed.

(** C6, amended.  The in-memory list has one bookmark per returned row, in
    the store's order; the bookmark at [index] is the row at [index] with
    its position set to the stored one when there is one and to [index]
    when it is null, every other field kept; a null [data] gives the empty
    list.  Positions [null, 1, 0] become [0, 1, 0]. *)
Theorem fetch_fills_missing_positions (rows : list Row) (index : nat) (r : Row) :
  length (bookmarksWithOrder (Some rows)) = length rows
  /\ bookmarksWithOrder (Some rows) !! index = withOrder index <$> rows !! index
  /\ position (withOrder index r)
     = match r_position r with Some p => p | None => Z.of_nat index end
  /\ (id (withOrder index r), url (withOrder index r), title (withOrder index r),
      favicon_url (withOrder index r), summary (withOrder index r),
      tags (withOrder index r), created_at (withOrder index r))
     = (r_id r, r_url r, r_title r, r_favicon_url r, r_summary r, r_tags r,
        r_created_at r)
  /\ bookmarksWithOrder None = []
  /\ List.map position (bookmarksWithOrder (Some scenarioD)) = [0; 1; 0].
Proof.
  unfold bookmarksWithOrder. repeat split.
  - apply length_imap.
  - apply list_lookup_imap.
Qed.

End FetchTheorems.

(** ** Filter derivation *)

Section FilterTheorems.

Lemma arrayIncludes_spec (arr : list string) (x : string) :
  arrayIncludes arr x = true <-> In x arr.
Proof.
  unfold arrayIncludes. rewrite existsb_exists. split.
  - intros [y [Hy He]]. apply String.eqb_eq in He. now subst.
  - intros H. exists x. split; [exact H | apply String.eqb_refl].
Qed.

Lemma matchesTags_spec (T : list string) (b : Bookmark) :
  matchesTags T b = true <-> exists tag, In tag T /\ In tag (tags b).
Proof.
  unfold matchesTags. rewrite existsb_exists.
  split; intros [tag [H1 H2]]; exists tag; split; auto;
    now apply arrayIncludes_spec.
Qed.

Lemma matchesSearch_spec (s : string) (b : Bookmark) :
  matchesSearch s b = true <->
    matchesIgnoringCase s (title b) \/ matchesIgnoringCase s (url b)
    \/ exists text, summary b = Some text /\ matchesIgnoringCase s text.
Proof.
  unfold matchesSearch, matchesIgnoringCase.
  rewrite !orb_true_iff, !includes_spec.
  destruct (summary b) as [text|].
  - rewrite includes_spec. split.
    + intros [[H | H] | H]; [now left | now right; left | right; right; now exists text].
    + intros [H | [H | [text' [[= <-] H]]]]; [left; now left | left; now right | now right].
  - split.
    + intros [[H | H] | H]; [now left | now right; left | discriminate].
    + intros [H | [H | [text' [H _]]]]; [left; now left | left; now right | discriminate].
Qed.

Lemma filter_sublist {A} (p : A -> bool) (l : list A) :
  List.filter p l `sublist_of` l.
Proof.
  induction l as [|x l IH]; simpl; [constructor|].
  destruct (p x); now constructor.
Qed.

Lemma filterBookmarks_unfold (L : list Bookmark) (s : string) (T : list string) :
  filterBookmarks L s T =
    (if (0 <? length T)%nat then List.filter (matchesTags T) else fun l => l)
      ((if truthy s then List.filter (matchesSearch s) else fun l => l) L).
Proof. unfold filterBookmarks. now destruct (truthy s), (0 <? length T)%nat. Qed.

(** C4.  A bookmark is in the filtered view exactly when it is in the
    working list, the search text is empty or occurs, ignoring case, in its
    title, its url or its non-null summary, and the selected tags are empty
    or one of them is among its tags. *)
Theorem filtered_view_membership
    (L : list Bookmark) (s : string) (T : list string) (b : Bookmark) :
  In b (filterBookmarks L s T) <->
    In b L
    /\ (s = EmptyString
        \/ matchesIgnoringCase s (title b)
        \/ matchesIgnoringCase s (url b)
        \/ exists text, summary b = Some text /\ matchesIgnoringCase s text)
    /\ (T = [] \/ exists tag, In tag T /\ In tag (tags b)).
Proof.
  rewrite filterBookmarks_unfold.
  assert (HT : (if (0 <? length T)%nat then matchesTags T b = true else True)
               <-> (T = [] \/ exists tag, In tag T /\ In tag (tags b))).
  { destruct T as [|t T].
    - split; [now left | simpl; trivial].
    - change (0 <? length (t :: T))%nat with true. cbv iota.
      rewrite matchesTags_spec. split; [now right | now intros [? | ?]]. }
  assert (Hs : (if truthy s then matchesSearch s b = true else True)
               <-> (s = EmptyString
                    \/ matchesIgnoringCase s (title b)
                    \/ matchesIgnoringCase s (url b)
                    \/ exists text, summary b = Some text
                                    /\ matchesIgnoringCase s text)).
  { destruct s as [|c s].
    - split; [now left | simpl; trivial].
    - change (truthy (String c s)) with true. cbv iota.
      rewrite matchesSearch_spec. split; [now right | now intros [? | ?]]. }
  rewrite <- HT, <- Hs.
  destruct (0 <? length T)%nat, (truthy s); rewrite ?filter_In; tauto.
Qed.

Lemma filtered_view_membership_witness :
  let github := {| id := "1"; url := "https://github.com/x"; title := "GitHub Docs";
                   favicon_url := None; summary := None; tags := ["personal"; "work"];
                   created_at := ""; position := 0 |} in
  In github (filterBookmarks [github] "github" ["work"]).
Proof.
  intros github.
  apply (filtered_view_membership [github] "github" ["work"] github).
  split; [now left|]. split.
  - right. left. apply includes_spec. reflexivity.
  - right. exists "work". simpl. tauto.
Defined.

(** Scenarios B and C. *)
Example scenario_B_and_C :
  let mk i u t tg := {| id := i; url := u; title := t; favicon_url := None;
                        summary := None; tags := tg; created_at := "";
                        position := 0 |} in
  let github := mk "1" "https://github.com/x" "GitHub Docs" ["personal"; "work"] in
  let example := mk "2" "https://example.com" "Example" ["personal"] in
  filterBookmarks [github; example] "github" [] = [github]
  /\ filterBookmarks [github; example] "" ["work"] = [github].
Proof. split; reflexivity. Qed.

(** C5.  The filtered view is a function of the working list, the search
    text and the selected tags alone, and computing it changes nothing but
    the filtered view.  With an empty search text and no selected tag it is
    the working list itself; in every case it is a subsequence of the
    working list, so it keeps the working list's relative order. *)
Theorem filter_is_pure_and_keeps_order
    (st : State) (L : list Bookmark) (s : string) (T : list string) :
  filterBookmarks L EmptyString [] = L
  /\ filterBookmarks L s T `sublist_of` L
  /\ filteredBookmarks (filterEffect st)
     = filterBookmarks (bookmarks st) (searchTerm st) (selectedTags st)
  /\ (user (filterEffect st), bookmarks (filterEffect st),
      searchTerm (filterEffect st), selectedTags (filterEffect st))
     = (user st, bookmarks st, searchTerm st, selectedTags st).
Proof.
  split; [reflexivity|]. split; [|now split].
  rewrite filterBookmarks_unfold.
  destruct (0 <? length T)%nat, (truthy s).
  - etransitivity; apply filter_sublist.
  - apply filter_sublist.
  - apply filter_sublist.
  - reflexivity.
Qed.

End FilterTheorems.

(** ** Delete *)

Section DeleteTheorems.

Lemma filter_all {A} (p : A -> bool) (l : list A) :
  (forall x, In x l -> p x = true) -> List.filter p l = l.
Proof.
  induction l as [|x l IH]; simpl; intros H; [reflexivity|].
  rewrite (H x) by now left. f_equal. apply IH. intros y Hy. apply H. now right.
Qed.

Lemma delete_success (st : State) (id0 : string) (answer : Answer) :
  awaitChecked answer = None ->
  handleDeleteBookmark st id0 answer =
    {| state := setBookmarks st (List.filter (keeps id0) (bookmarks st));
       calls := [Delete id0 (user st)];
       toasts := [ {| toast_title := "Bookmark deleted";
                      toast_description :=
                        "The bookmark has been removed from your collection.";
                      destructive := false |} ] |}.
Proof. unfold handleDeleteBookmark. now intros ->. Qed.

Lemma delete_failure (st : State) (id0 message : string) (answer : Answer) :
  awaitChecked answer = Some message ->
  handleDeleteBookmark st id0 answer =
    {| state := st;
       calls := [Delete id0 (user st)];
       toasts := [ {| toast_title := "Error deleting bookmark";
                      toast_description := message;
                      destructive := true |} ] |}.
Proof. unfold handleDeleteBookmark. now intros ->. Qed.

(** C7.  Deleting sends one delete request, filtered on both the id and the
    owner.  When the store reports success, the working list loses the
    bookmarks with that id and nothing else: what remains is a subsequence
    of the old list, the same records with the positions they had.  When
    the store reports an error or the request is rejected, the state is
    unchanged and one destructive notification carries the message.  When no
    bookmark has the id, the working list is the same after the handler,
    whatever the store answers, and a successful answer gives no error
    notification. *)
Theorem delete_removes_only_that_id (st : State) (id0 : string) (answer : Answer) :
  let out := handleDeleteBookmark st id0 answer in
  calls out = [Delete id0 (user st)]
  /\ (answer = Resolves None ->
      (forall b, In b (bookmarks (state out)) <->
                 In b (bookmarks st) /\ id b <> id0)
      /\ bookmarks (state out) `sublist_of` bookmarks st
      /\ bookmarks (state out) = List.filter (keeps id0) (bookmarks st)
      /\ List.Forall (fun t => destructive t = false) (toasts out)
      /\ (user (state out), filteredBookmarks (state out),
          searchTerm (state out), selectedTags (state out))
         = (user st, filteredBookmarks st, searchTerm st, selectedTags st))
  /\ (forall message,
        answer = Resolves (Some message) \/ answer = Rejects message ->
        state out = st
        /\ toasts out = [ {| toast_title := "Error deleting bookmark";
                             toast_description := message;
                             destructive := true |} ])
  /\ (~ In id0 (List.map id (bookmarks st)) ->
      bookmarks (state out) = bookmarks st
      /\ (answer = Resolves None ->
          List.Forall (fun t => destructive t = false) (toasts out))).
Proof.
  cbv zeta. split; [unfold handleDeleteBookmark; now destruct (awaitChecked answer)|].
  split; [|split].
  - intros ->. rewrite delete_success by reflexivity. simpl.
    split; [|split; [apply filter_sublist|split; [reflexivity|split]]].
    + intros b. rewrite filter_In. unfold keeps.
      rewrite negb_true_iff, String.eqb_neq. tauto.
    + now repeat constructor.
    + reflexivity.
  - intros message H.
    rewrite (delete_failure st id0 message) by (destruct H as [-> | ->]; reflexivity).
    now split.
  - intros Habsent. split.
    + unfold handleDeleteBookmark.
      destruct (awaitChecked answer); [reflexivity|]. simpl.
      apply filter_all. intros b Hb. unfold keeps.
      rewrite negb_true_iff, String.eqb_neq. intros <-.
      apply Habsent. now apply in_map.
    + intros ->. simpl. now repeat constructor.
Qed.

Lemma delete_removes_only_that_id_witness :
  let b1 := {| id := "1"; url := "https://a.example/"; title := "A";
               favicon_url := None; summary := None; tags := [];
               created_at := ""; position := 0 |} in
  let b3 := {| id := "3"; url := "https://c.example/"; title := "C";
               favicon_url := None; summary := None; tags := [];
               created_at := ""; position := 2 |} in
  let st := {| user := Some "owner"; bookmarks := [b1; b3];
               filteredBookmarks := [b1; b3]; searchTerm := "";
               selectedTags := [] |} in
  bookmarks (state (handleDeleteBookmark st "2" (Rejects "offline")))
  = bookmarks st.
Proof.
  intros b1 b3 st.
  apply (delete_removes_only_that_id st "2" (Rejects "offline")).
  simpl. intros [H | [H | []]]; discriminate.
Defined.

End DeleteTheorems.

(** ** Reorder *)

Section ReorderNoop.

(** C8.  When the dragged item is dropped on itself, [handleDragEnd] leaves
    the whole state (working list, filtered view, positions) as it was, sends
    no request and shows no notification. *)
Theorem drag_onto_itself_is_noop
    (st : State) (a : string) (answers : nat -> Answer) :
  handleDragEnd st {| active_id := a; over_id := Some a |} answers
  = Some {| state := st; calls := []; toasts := [] |}.
Proof.
  unfold handleDragEnd. simpl. now rewrite bool_decide_eq_true_2.
Qed.

End ReorderNoop.

Section ArrayMoveFacts.
Context {A : Type}.
Implicit Types (l : list A) (p : A -> bool).

Lemma findIndexFrom_range p l (i : Z) :
  0 <= i ->
  findIndexFrom p l i = -1
  \/ i <= findIndexFrom p l i < i + Z.of_nat (length l).
Proof.
  revert i; induction l as [|x l IH]; intros i Hi; simpl; [now left|].
  destruct (p x); [right; lia|].
  destruct (IH (i + 1)) as [H | H]; [lia | now left | right; lia].
Qed.

Lemma findIndex_range p l :
  -1 <= findIndex p l < Z.of_nat (length l).
Proof.
  unfold findIndex. destruct (findIndexFrom_range p l 0) as [H | H]; lia.
Qed.

Lemma spliceStart_slot (len : nat) (z : Z) :
  (0 < len)%nat -> -1 <= z < Z.of_nat len ->
  spliceStart len z = slot len z /\ (slot len z < len)%nat.
Proof.
  intros Hlen Hz. unfold spliceStart, slot.
  destruct (z <? 0) eqn:E; [apply Z.ltb_lt in E | apply Z.ltb_ge in E]; lia.
Qed.

Lemma moved_lookup l (i j : nat) (x : A) :
  l !! i = Some x ->
  moved l i j = take j (delete i l) ++ x :: drop j (delete i l).
Proof. unfold moved. now intros ->. Qed.

Lemma arrayMove_moved l (from to : Z) :
  l <> [] ->
  -1 <= from < Z.of_nat (length l) ->
  -1 <= to < Z.of_nat (length l) ->
  arrayMove l from to
  = Some (moved l (slot (length l) from) (slot (length l) to)).
Proof.
  intros Hl Hfrom Hto.
  assert (Hlen : (0 < length l)%nat) by (destruct l; [congruence | simpl; lia]).
  destruct (spliceStart_slot (length l) from Hlen Hfrom) as [Ei Hi].
  destruct (spliceStart_slot (length l) to Hlen Hto) as [Ej Hj].
  destruct (lookup_lt_is_Some_2 l _ Hi) as [x Hx].
  unfold arrayMove, spliceOut. rewrite Ei.
  rewrite (drop_S l x _ Hx). simpl take at 1. cbv iota beta.
  rewrite (moved_lookup l _ _ x Hx), delete_take_drop.
  unfold spliceIn. f_equal.
  set (d := take (slot (length l) from) l ++ drop (S (slot (length l) from)) l).
  assert (Hd : length d = (length l - 1)%nat).
  { unfold d. rewrite length_app, length_take, length_drop. lia. }
  assert (Es : spliceStart (length d)
                 (if to <? 0 then Z.of_nat (length l) + to else to)
               = slot (length l) to).
  { rewrite Hd. unfold spliceStart, slot in *.
    destruct (to <? 0) eqn:E; [apply Z.ltb_lt in E | apply Z.ltb_ge in E].
    - destruct (Z.of_nat (length l) + to <? 0) eqn:E';
        [apply Z.ltb_lt in E' | apply Z.ltb_ge in E']; lia.
    - rewrite (proj2 (Z.ltb_ge to 0) E). lia. }
  now rewrite Es.
Qed.

Lemma arrayMove_is_Some l (from to : Z) :
  l <> [] -> -1 <= from < Z.of_nat (length l) ->
  is_Some (arrayMove l from to).
Proof.
  intros Hl Hfrom.
  assert (Hlen : (0 < length l)%nat) by (destruct l; [congruence | simpl; lia]).
  destruct (spliceStart_slot (length l) from Hlen Hfrom) as [Ei Hi].
  destruct (lookup_lt_is_Some_2 l _ Hi) as [x Hx].
  unfold arrayMove, spliceOut. rewrite Ei, (drop_S l x _ Hx). simpl. eauto.
Qed.

(** Whatever the indices, [arrayMove] only rearranges. *)
Lemma arrayMove_Permutation l l' (from to : Z) :
  arrayMove l from to = Some l' -> l' ≡ₚ l.
Proof.
  unfold arrayMove, spliceOut, spliceIn.
  set (s := spliceStart (length l) from).
  destruct (drop s l) as [|x rest] eqn:Hdrop; simpl; [discriminate|].
  intros [= <-].
  assert (Hrest : drop (S s) l = rest).
  { replace (S s) with (s + 1)%nat by lia. now rewrite <- drop_drop, Hdrop. }
  rewrite Hrest.
  set (d := take s l ++ rest).
  set (j := spliceStart (length d) _).
  rewrite <- Permutation_middle, take_drop.
  unfold d. rewrite Permutation_middle, <- Hdrop, take_drop. reflexivity.
Qed.

Lemma moved_length l (i j : nat) : length (moved l i j) = length l.
Proof.
  unfold moved. destruct (l !! i) as [x|] eqn:Hx; [|reflexivity].
  pose proof (lookup_lt_Some _ _ _ Hx).
  rewrite length_app. simpl. rewrite length_take, length_drop, length_delete by eauto.
  lia.
Qed.

Lemma moved_target l (i j : nat) :
  (i < length l)%nat -> (j < length l)%nat ->
  moved l i j !! j = l !! i /\ delete j (moved l i j) = delete i l.
Proof.
  intros Hi Hj. destruct (lookup_lt_is_Some_2 l _ Hi) as [x Hx].
  rewrite (moved_lookup l i j x Hx), Hx.
  assert (Hd : length (delete i l) = (length l - 1)%nat)
    by (rewrite length_delete; eauto).
  assert (Ht : length (take j (delete i l)) = j)
    by (rewrite length_take; lia).
  remember (delete i l) as d eqn:Ed. clear Ed. split.
  - now rewrite list_lookup_middle.
  - rewrite delete_take_drop.
    rewrite take_app_length' by now rewrite Ht.
    replace (S j) with (j + 1)%nat by lia. rewrite <- drop_drop.
    rewrite drop_app_length' by now rewrite Ht.
    change (drop 1 (x :: drop j d)) with (drop j d). apply take_drop.
Qed.

(** Moving back from [j] to [i] undoes the move from [i] to [j]. *)
Lemma moved_back l (i j : nat) :
  (i < length l)%nat -> (j < length l)%nat ->
  moved (moved l i j) j i = l.
Proof.
  intros Hi Hj. destruct (lookup_lt_is_Some_2 l _ Hi) as [x Hx].
  destruct (moved_target l i j Hi Hj) as [Hat Hdel].
  rewrite (moved_lookup (moved l i j) j i x) by now rewrite Hat.
  rewrite Hdel, delete_take_drop.
  pose proof (lookup_lt_Some _ _ _ Hx) as Hlt.
  rewrite take_app_le by (rewrite length_take; lia).
  rewrite take_take, Nat.min_id.
  rewrite drop_app_length' by (rewrite length_take; lia).
  now apply take_drop_middle.
Qed.

End ArrayMoveFacts.

Section SortFacts.

Lemma insertByPosition_Permutation (x : Bookmark) (l : list Bookmark) :
  insertByPosition x l ≡ₚ x :: l.
Proof.
  induction l as [|y l IH]; simpl; [reflexivity|].
  destruct (position y <? position x); [|reflexivity].
  rewrite IH. apply Permutation_swap.
Qed.

Lemma sortByPosition_Permutation (l : list Bookmark) : sortByPosition l ≡ₚ l.
Proof.
  induction l as [|x l IH]; simpl; [reflexivity|].
  now rewrite insertByPosition_Permutation, IH.
Qed.

Lemma insertByPosition_sorted (x : Bookmark) (l : list Bookmark) :
  StronglySorted byPosition l -> StronglySorted byPosition (insertByPosition x l).
Proof.
  induction 1 as [|y l Hl IH Hy]; simpl; [repeat constructor|].
  destruct (position y <? position x) eqn:E.
  - apply Z.ltb_lt in E. constructor; [exact IH|].
    rewrite insertByPosition_Permutation. constructor; [unfold byPosition; lia | exact Hy].
  - apply Z.ltb_ge in E. constructor; [now constructor|].
    constructor; [exact E|].
    eapply Forall_impl; [exact Hy|]. unfold byPosition. intros; lia.
Qed.

Lemma sortByPosition_sorted (l : list Bookmark) :
  StronglySorted byPosition (sortByPosition l).
Proof.
  induction l as [|x l IH]; simpl; [constructor|].
  now apply insertByPosition_sorted.
Qed.

End SortFacts.

Section RenumberFacts.

Lemma elem_of_renumbered (l : list Bookmark) (x : Bookmark) :
  x ∈ renumbered l <->
    exists j u, l !! j = Some u /\ x = setPosition u (Z.of_nat j).
Proof.
  unfold renumbered. rewrite list_elem_of_lookup. split.
  - intros [j Hj]. apply list_lookup_imap_Some in Hj.
    destruct Hj as [u [Hu ->]]. now exists j, u.
  - intros [j [u [Hu ->]]]. exists j. rewrite list_lookup_imap, Hu. reflexivity.
Qed.

Lemma renumbered_sorted_from (l : list Bookmark) (k : nat) :
  StronglySorted byPosition
    (imap (fun index b => setPosition b (Z.of_nat (k + index))) l).
Proof.
  revert k; induction l as [|b l IH]; intros k; [constructor|].
  rewrite imap_cons. constructor.
  - erewrite imap_ext; [apply (IH (S k))|].
    intros i y _. simpl. f_equal. lia.
  - apply Forall_forall. intros y Hy.
    apply list_elem_of_lookup in Hy. destruct Hy as [j Hj].
    apply list_lookup_imap_Some in Hj. destruct Hj as [u [_ ->]].
    unfold byPosition. simpl. lia.
Qed.

Lemma renumbered_sorted (l : list Bookmark) :
  StronglySorted byPosition (renumbered l).
Proof. exact (renumbered_sorted_from l 0). Qed.

Lemma renumbered_positions (l : list Bookmark) :
  position <$> renumbered l = dense (length l).
Proof.
  unfold renumbered, dense. rewrite fmap_imap.
  exact (imap_seq l (fun n => Z.of_nat n) 0).
Qed.

Lemma renumbered_ids (l : list Bookmark) : id <$> renumbered l = id <$> l.
Proof.
  unfold renumbered. rewrite fmap_imap. apply imap_const.
Qed.

End RenumberFacts.

Section ReconcileFacts.

Lemma id_assign1 (b : Bookmark) (k : nat) (u : Bookmark) :
  id (assign1 b k u) = id u.
Proof.
  unfold assign1. destruct (String.eqb_spec (id u) (id b)) as [E|]; simpl; auto.
Qed.

Lemma assign1_other (b : Bookmark) (k : nat) (u : Bookmark) :
  id u <> id b -> assign1 b k u = u.
Proof. unfold assign1. intros H. apply String.eqb_neq in H. now rewrite H. Qed.

Lemma assign1_absent (b : Bookmark) (k : nat) (l : list Bookmark) :
  id b ∉ id <$> l -> assign1 b k <$> l = l.
Proof.
  intros Hb. induction l as [|u l IH]; [reflexivity|].
  rewrite fmap_cons in *. apply not_elem_of_cons in Hb. destruct Hb as [Hu Hl].
  rewrite assign1_other by congruence. now rewrite IH.
Qed.

(** With distinct ids, writing at the index [findIndex] gives touches the
    one bookmark with that id. *)
Lemma write_at_found (b v : Bookmark) (updated : list Bookmark) (i : Z) :
  0 <= i ->
  NoDup (id <$> updated) ->
  let r := findIndexFrom (fun u => String.eqb (id u) (id b)) updated i in
  (if negb (r =? -1) then <[Z.to_nat (r - i) := v]> updated else updated)
  = (fun u => if String.eqb (id u) (id b) then v else u) <$> updated.
Proof.
  cbv zeta. revert i; induction updated as [|u us IH]; intros i Hi Hnd;
    [reflexivity|].
  rewrite fmap_cons in Hnd. apply NoDup_cons in Hnd. destruct Hnd as [Hu Hus].
  rewrite fmap_cons. simpl findIndexFrom.
  destruct (String.eqb_spec (id u) (id b)) as [E|E].
  - replace (i =? -1) with false by (symmetry; apply Z.eqb_neq; lia).
    rewrite Z.sub_diag. simpl. f_equal.
    rewrite E in Hu. clear IH Hus E.
    induction us as [|w us IHus]; [reflexivity|].
    rewrite fmap_cons in *. apply not_elem_of_cons in Hu. destruct Hu as [Hw Hu].
    rewrite <- IHus by exact Hu.
    destruct (String.eqb_spec (id w) (id b)); [congruence | reflexivity].
  - specialize (IH (i + 1) ltac:(lia) Hus).
    pose proof (findIndexFrom_range (fun u => String.eqb (id u) (id b)) us (i + 1)
                  ltac:(lia)) as Hr.
    destruct (findIndexFrom _ us (i + 1) =? -1) eqn:Er; simpl negb in *; cbv iota in *.
    + now rewrite <- IH.
    + apply Z.eqb_neq in Er.
      replace (Z.to_nat (findIndexFrom (fun u => String.eqb (id u) (id b)) us (i + 1) - i))
        with (S (Z.to_nat (findIndexFrom (fun u => String.eqb (id u) (id b)) us (i + 1)
                           - (i + 1)))) by lia.
      simpl. now rewrite <- IH.
Qed.

Lemma reconcileStep_fmap (updated : list Bookmark) (b : Bookmark) (k : nat) :
  NoDup (id <$> updated) ->
  reconcileStep updated b k = assign1 b k <$> updated.
Proof.
  intros Hnd. unfold reconcileStep, findIndex.
  pose proof (write_at_found b (setPosition b (Z.of_nat k)) updated 0
                ltac:(lia) Hnd) as H.
  cbv zeta in H. rewrite Z.sub_0_r in H. exact H.
Qed.

Lemma forEach_assign (l updated : list Bookmark) (k : nat) :
  NoDup (id <$> updated) ->
  forEachFrom reconcileStep l k updated = assign l k <$> updated.
Proof.
  revert k updated; induction l as [|b l IH]; intros k updated Hnd; simpl.
  - now rewrite list_fmap_id.
  - rewrite reconcileStep_fmap by exact Hnd.
    rewrite IH.
    + now rewrite <- list_fmap_compose.
    + rewrite <- list_fmap_compose.
      erewrite list_fmap_ext; [exact Hnd|].
      intros i u _. simpl. apply id_assign1.
Qed.

Lemma assign_absent (l : list Bookmark) (k : nat) (u : Bookmark) :
  id u ∉ id <$> l -> assign l k u = u.
Proof.
  revert k; induction l as [|b l IH]; intros k Hu; [reflexivity|].
  rewrite fmap_cons in Hu. apply not_elem_of_cons in Hu. destruct Hu as [Hb Hl].
  simpl. rewrite assign1_other by exact Hb. now apply IH.
Qed.

Lemma assign_at (l : list Bookmark) (k j : nat) (u : Bookmark) :
  NoDup (id <$> l) -> l !! j = Some u ->
  assign l k u = setPosition u (Z.of_nat (k + j)).
Proof.
  revert k j; induction l as [|b l IH]; intros k j Hnd Hj; [discriminate|].
  rewrite fmap_cons in Hnd. apply NoDup_cons in Hnd. destruct Hnd as [Hb Hl].
  destruct j as [|j]; simpl in *.
  - injection Hj as ->. unfold assign1. rewrite String.eqb_refl.
    rewrite assign_absent by exact Hb. f_equal. lia.
  - rewrite assign1_other.
    + rewrite (IH (S k) j Hl Hj). f_equal. lia.
    + intros E. apply Hb. rewrite <- E.
      apply list_elem_of_fmap_2. eapply list_elem_of_lookup_2; eauto.
Qed.

Lemma assign_self (l : list Bookmark) :
  NoDup (id <$> l) -> assign l 0 <$> l = renumbered l.
Proof.
  intros Hnd. apply list_eq. intros j. unfold renumbered.
  rewrite list_lookup_fmap, list_lookup_imap.
  destruct (l !! j) as [u|] eqn:Hu; [|reflexivity]. simpl.
  now rewrite (assign_at l 0 j u Hnd Hu).
Qed.

(** The updater in the case the claims are about: the view is the whole
    working list, rearranged. *)
Lemma reconcile_renumbered (prev newOrder : list Bookmark) :
  NoDup (id <$> prev) -> newOrder ≡ₚ prev ->
  reconcile prev newOrder = renumbered newOrder.
Proof.
  intros Hnd Hperm. unfold reconcile.
  rewrite forEach_assign by exact Hnd.
  assert (Hnd' : NoDup (id <$> newOrder)) by now rewrite Hperm.
  assert (Hp : sortByPosition (assign newOrder 0 <$> prev) ≡ₚ renumbered newOrder).
  { rewrite sortByPosition_Permutation, <- Hperm. now rewrite assign_self. }
  apply (StronglySorted_unique_strong byPosition);
    [|apply sortByPosition_sorted|apply renumbered_sorted|exact Hp].
  intros x1 x2 H1 H2 H12 H21. rewrite Hp in H1.
  apply elem_of_renumbered in H1. destruct H1 as [j1 [u1 [Hu1 ->]]].
  apply elem_of_renumbered in H2. destruct H2 as [j2 [u2 [Hu2 ->]]].
  unfold byPosition in *. simpl in *.
  assert (j1 = j2) by lia. subst j2. congruence.
Qed.

End ReconcileFacts.

Section PersistFacts.

Lemma requestsFor_updatesOf (owner : option string) (l : list Bookmark) :
  updateCall owner <$> updatesOf l = requestsFor owner l.
Proof. unfold updatesOf, requestsFor. now rewrite fmap_imap. Qed.

Lemma persistFrom_all (owner : option string) (updates : list (string * Z))
    (answers : nat -> Answer) (k : nat) :
  (forall j, (j < length updates)%nat -> awaitUnchecked (answers (k + j)%nat) = None) ->
  persistFrom owner updates answers k = (updateCall owner <$> updates, None).
Proof.
  revert k; induction updates as [|u us IH]; intros k H; [reflexivity|].
  simpl. pose proof (H 0%nat ltac:(simpl; lia)) as H0.
  rewrite Nat.add_0_r in H0. rewrite H0.
  rewrite IH; [reflexivity|].
  intros j Hj. replace (S k + j)%nat with (k + S j)%nat by lia.
  apply H. simpl. lia.
Qed.

Lemma persistFrom_rejected (owner : option string) (updates : list (string * Z))
    (answers : nat -> Answer) (k m : nat) (message : string) :
  (m < length updates)%nat ->
  (forall j, (j < m)%nat -> awaitUnchecked (answers (k + j)%nat) = None) ->
  awaitUnchecked (answers (k + m)%nat) = Some message ->
  persistFrom owner updates answers k
  = (updateCall owner <$> take (S m) updates, Some message).
Proof.
  revert k m; induction updates as [|u us IH]; intros k m Hm Hbefore Hat;
    [simpl in Hm; lia|].
  simpl persistFrom. destruct m as [|m].
  - rewrite Nat.add_0_r in Hat. now rewrite Hat.
  - pose proof (Hbefore 0%nat ltac:(lia)) as H0.
    rewrite Nat.add_0_r in H0. rewrite H0.
    rewrite (IH (S k) m).
    + reflexivity.
    + simpl in Hm. lia.
    + intros j Hj. replace (S k + j)%nat with (k + S j)%nat by lia.
      apply Hbefore. lia.
    + now replace (S k + m)%nat with (k + S m)%nat by lia.
Qed.

End PersistFacts.

Section DragEndFacts.
Variables (st : State) (event : DragEndEvent) (answers : nat -> Answer).

Let view := filteredBookmarks st.
Let oldIndex :=
  findIndex (fun item => String.eqb (id item) (active_id event)) view.
Let newIndex := findIndex (isOver event) view.
Let i := slot (length view) oldIndex.
Let j := slot (length view) newIndex.
Let newOrder := moved view i j.

Hypothesis Hdistinct : Some (active_id event) <> over_id event.
Hypothesis Hview : filteredBookmarks st <> [].

Lemma slots_in_view : (i < length view)%nat /\ (j < length view)%nat.
Proof.
  assert (Hlen : (0 < length view)%nat).
  { unfold view. destruct (filteredBookmarks st); [congruence | simpl; lia]. }
  split; eapply spliceStart_slot; eauto; apply findIndex_range.
Qed.

Lemma arrayMove_view : arrayMove view oldIndex newIndex = Some newOrder.
Proof. apply arrayMove_moved; [exact Hview | apply findIndex_range..]. Qed.

Lemma arrayMove_back : arrayMove newOrder newIndex oldIndex = Some view.
Proof.
  destruct slots_in_view as [Hi Hj].
  assert (Hlen : length newOrder = length view) by apply moved_length.
  rewrite arrayMove_moved.
  - rewrite Hlen. fold i j. unfold newOrder. now rewrite moved_back.
  - intros E. rewrite E in Hlen. simpl in Hlen. lia.
  - rewrite Hlen. apply findIndex_range.
  - rewrite Hlen. apply findIndex_range.
Qed.

(** [handleDragEnd] on a real move over a view that is not empty. *)
Lemma handleDragEnd_move :
  handleDragEnd st event answers =
    match persistFrom (user st) (updatesOf newOrder) answers 0 with
    | (sent, None) =>
        Some {| state := setBookmarks (setFilteredBookmarks st newOrder)
                           (reconcile (bookmarks st) newOrder);
                calls := sent;
                toasts := [] |}
    | (sent, Some message) =>
        Some {| state := st;
                calls := sent;
                toasts := [ {| toast_title := "Error updating order";
                               toast_description := message;
                               destructive := true |} ] |}
    end.
Proof.
  unfold handleDragEnd.
  rewrite bool_decide_eq_false_2 by exact Hdistinct. simpl negb. cbv iota.
  fold view. fold oldIndex. fold newIndex.
  rewrite arrayMove_view. cbv zeta. simpl user. simpl bookmarks.
  destruct (persistFrom (user st) (updatesOf newOrder) answers 0)
    as [sent [message|]]; [|reflexivity].
  rewrite arrayMove_back. unfold view. now destruct st.
Qed.

End DragEndFacts.

Section ReorderTheorems.

Lemma length_updatesOf (l : list Bookmark) : length (updatesOf l) = length l.
Proof. apply length_imap. Qed.

(** C2, as stated, fails: dragging item 1 onto item 2 in scenario A leaves
    item 3 at index 2, the position it already has, and a request for item 3
    is sent all the same. *)
Lemma unchanged_item_is_persisted :
  let event := {| active_id := "1"; over_id := Some "2" |} in
  exists out newOrder,
    arrayMove (filteredBookmarks scenarioA) (oldIndexOf scenarioA event)
              (newIndexOf scenarioA event) = Some newOrder
    /\ handleDragEnd scenarioA event (fun _ => Resolves None) = Some out
    /\ newOrder !! 2%nat = Some (mkBookmark "3" 2)
    /\ In (Update 2 "3" (Some "owner")) (calls out)
    /\ calls out <> requestsForChanged (Some "owner") newOrder.
Proof.
  eexists _, _. split; [vm_compute; reflexivity|].
  split; [vm_compute; reflexivity|].
  split; [reflexivity|]. split; [simpl; tauto | discriminate].
Qed.

(** C2, amended.  On a real move over a non-empty view [handleDragEnd]
    returns, and the requests it sends are those of the new order, one per
    item whether or not its position changed, in order: the request for the
    item at [index] sets position [index] and is filtered on the item's id
    and on the owner.  The requests are sent one after the other: when none
    is rejected all are sent, and when the [k]-th is the first rejected one
    the requests sent are the first [k + 1] and no later one. *)
Theorem reorder_persists_every_item
    (st : State) (event : DragEndEvent) (answers : nat -> Answer) :
  Some (active_id event) <> over_id event ->
  filteredBookmarks st <> [] ->
  exists out newOrder,
    handleDragEnd st event answers = Some out
    /\ arrayMove (filteredBookmarks st) (oldIndexOf st event) (newIndexOf st event)
       = Some newOrder
    /\ length newOrder = length (filteredBookmarks st)
    /\ (forall index b,
          newOrder !! index = Some b ->
          requestsFor (user st) newOrder !! index
          = Some (Update (Z.of_nat index) (id b) (user st)))
    /\ length (requestsFor (user st) newOrder) = length newOrder
    /\ (noneRejectedBefore answers (length newOrder) ->
        calls out = requestsFor (user st) newOrder)
    /\ (forall k message,
          (k < length newOrder)%nat ->
          noneRejectedBefore answers k ->
          awaitUnchecked (answers k) = Some message ->
          calls out = take (S k) (requestsFor (user st) newOrder)).
Proof.
  intros Hdistinct Hview.
  pose proof (handleDragEnd_move st event answers Hdistinct Hview) as Hrun.
  pose proof (arrayMove_view st event Hview) as Hmove.
  set (newOrder := moved _ _ _) in *.
  assert (Hlen : length newOrder = length (filteredBookmarks st))
    by apply moved_length.
  destruct (persistFrom (user st) (updatesOf newOrder) answers 0)
    as [sent thrown] eqn:Hsent.
  assert (Hout : exists out, handleDragEnd st event answers = Some out
                             /\ calls out = sent).
  { rewrite Hrun. destruct thrown; eexists; split; reflexivity. }
  destruct Hout as [out [Hout Hcalls]].
  exists out, newOrder. split; [exact Hout|]. split; [exact Hmove|].
  split; [exact Hlen|]. split; [|split; [apply length_imap|split]].
  - intros index b Hb. unfold requestsFor. now rewrite list_lookup_imap, Hb.
  - intros Hnone. rewrite Hcalls.
    rewrite persistFrom_all in Hsent.
    + injection Hsent as <- _. apply requestsFor_updatesOf.
    + intros k Hk. apply Hnone. rewrite length_updatesOf in Hk. simpl. lia.
  - intros k message Hk Hbefore Hat. rewrite Hcalls.
    rewrite (persistFrom_rejected _ _ _ 0 k message) in Hsent.
    + injection Hsent as <- _.
      now rewrite fmap_take, requestsFor_updatesOf.
    + now rewrite length_updatesOf.
    + intros m Hm. now apply Hbefore.
    + exact Hat.
Qed.

Lemma reorder_persists_every_item_witness :
  exists out newOrder,
    handleDragEnd scenarioA {| active_id := "1"; over_id := Some "2" |}
                  (fun _ => Resolves None) = Some out
    /\ arrayMove (filteredBookmarks scenarioA)
         (oldIndexOf scenarioA {| active_id := "1"; over_id := Some "2" |})
         (newIndexOf scenarioA {| active_id := "1"; over_id := Some "2" |})
       = Some newOrder
    /\ calls out = requestsFor (user scenarioA) newOrder.
Proof.
  destruct (reorder_persists_every_item scenarioA
              {| active_id := "1"; over_id := Some "2" |}
              (fun _ => Resolves None))
    as [out [newOrder [H1 [H2 [_ [_ [_ [H3 _]]]]]]]].
  - discriminate.
  - discriminate.
  - exists out, newOrder. split; [exact H1|]. split; [exact H2|].
    apply H3. intros k _. reflexivity.
Defined.

(** X8.  What [handleDragEnd] does when a request is rejected: one
    destructive notification, and the state it started from, the view back
    in its order before the move. *)
Lemma rejected_request_reverts_view
    (st : State) (event : DragEndEvent) (answers : nat -> Answer)
    (k : nat) (message : string) :
  Some (active_id event) <> over_id event ->
  filteredBookmarks st <> [] ->
  (k < length (filteredBookmarks st))%nat ->
  noneRejectedBefore answers k ->
  awaitUnchecked (answers k) = Some message ->
  exists out,
    handleDragEnd st event answers = Some out
    /\ state out = st
    /\ toasts out = [errorToast "Error updating order" message].
Proof.
  intros Hdistinct Hview Hk Hbefore Hat.
  rewrite (handleDragEnd_move st event answers Hdistinct Hview).
  rewrite (persistFrom_rejected _ _ _ 0 k message).
  - eexists. repeat split.
  - now rewrite length_updatesOf, moved_length.
  - intros m Hm. now apply Hbefore.
  - exact Hat.
Qed.

(** C1 at a failing input.  In scenario A item 1 is dragged onto item 3 and
    the store answers every update with an error result.  No notification
    is shown, the view stays in the new order 2, 3, 1, and the working list
    takes the new positions. *)
Theorem store_error_is_neither_notified_nor_reverted :
  let event := {| active_id := "1"; over_id := Some "3" |} in
  let answers := fun _ : nat => Resolves (Some "permission denied") in
  exists out,
    handleDragEnd scenarioA event answers = Some out
    /\ toasts out = []
    /\ id <$> filteredBookmarks (state out) = ["2"; "3"; "1"]
    /\ filteredBookmarks (state out) <> filteredBookmarks scenarioA
    /\ id <$> bookmarks (state out) = ["2"; "3"; "1"]
    /\ position <$> bookmarks (state out) = [0; 1; 2].
Proof.
  eexists. split; [vm_compute; reflexivity|]. simpl state.
  repeat split. discriminate.
Qed.

(** C3.  When the view is the whole working list, ids are distinct, the
    move is a real one and no request is rejected, [handleDragEnd] returns
    and the working list becomes the new order with positions
    0, 1, ..., N-1 in that order: each value once, no gap.  The new order is
    the old one with one item taken out of slot [i] and put into slot [j],
    the other items in the order they had.  With no filter active the
    recomputed view is the new working list.  In scenario A, moving item 1
    to item 3's slot gives the order 2, 3, 1 with positions 0, 1, 2. *)
Theorem full_list_reorder_is_dense
    (st : State) (event : DragEndEvent) (answers : nat -> Answer) :
  filteredBookmarks st = bookmarks st ->
  bookmarks st <> [] ->
  NoDup (id <$> bookmarks st) ->
  Some (active_id event) <> over_id event ->
  noneRejectedBefore answers (length (bookmarks st)) ->
  (exists out newOrder i j,
    handleDragEnd st event answers = Some out
    /\ arrayMove (bookmarks st) (oldIndexOf st event) (newIndexOf st event)
       = Some newOrder
    /\ bookmarks (state out) = renumbered newOrder
    /\ position <$> bookmarks (state out) = dense (length (bookmarks st))
    /\ id <$> bookmarks (state out) = id <$> newOrder
    /\ newOrder ≡ₚ bookmarks st
    /\ (i < length (bookmarks st))%nat /\ (j < length (bookmarks st))%nat
    /\ newOrder !! j = bookmarks st !! i
    /\ delete j newOrder = delete i (bookmarks st)
    /\ (searchTerm st = EmptyString -> selectedTags st = [] ->
        filteredBookmarks (filterEffect (state out)) = bookmarks (state out)))
  /\ (exists outA,
        handleDragEnd scenarioA {| active_id := "1"; over_id := Some "3" |}
                      (fun _ => Resolves None) = Some outA
        /\ id <$> bookmarks (state outA) = ["2"; "3"; "1"]
        /\ position <$> bookmarks (state outA) = [0; 1; 2]).
Proof.
  intros Hfull Hne Hnd Hdistinct Hnone.
  split; [|eexists; split; [vm_compute; reflexivity | split; reflexivity]].
  assert (Hview : filteredBookmarks st <> []) by now rewrite Hfull.
  pose proof (handleDragEnd_move st event answers Hdistinct Hview) as Hrun.
  pose proof (arrayMove_view st event Hview) as Hmove.
  destruct (slots_in_view st event Hview) as [Hi Hj].
  destruct (moved_target (filteredBookmarks st) _ _ Hi Hj) as [Hat Hdel].
  set (i := slot _ (findIndex _ _)) in *.
  set (j := slot _ (findIndex (isOver event) _)) in *.
  set (newOrder := moved _ i j) in *.
  assert (Hlen : length newOrder = length (bookmarks st))
    by (unfold newOrder; now rewrite moved_length, Hfull).
  assert (Hperm : newOrder ≡ₚ bookmarks st)
    by (rewrite <- Hfull; exact (arrayMove_Permutation _ _ _ _ Hmove)).
  rewrite persistFrom_all in Hrun
    by (intros k Hk; apply Hnone; rewrite length_updatesOf in Hk; simpl; lia).
  rewrite (reconcile_renumbered _ _ Hnd Hperm) in Hrun.
  eexists _, newOrder, i, j. split; [exact Hrun|].
  unfold oldIndexOf, newIndexOf. rewrite <- Hfull at 1.
  split; [exact Hmove|]. simpl state. simpl bookmarks.
  split; [reflexivity|].
  split; [now rewrite renumbered_positions, Hlen|].
  split; [apply renumbered_ids|]. split; [exact Hperm|].
  rewrite <- Hfull.
  split; [exact Hi|]. split; [exact Hj|]. split; [exact Hat|].
  split; [exact Hdel|].
  intros Hs HT. unfold filterEffect. simpl. now rewrite Hs, HT.
Qed.

Lemma full_list_reorder_is_dense_witness :
  exists out,
    handleDragEnd scenarioA {| active_id := "3"; over_id := Some "1" |}
                  (fun _ => Resolves None) = Some out
    /\ position <$> bookmarks (state out) = dense 3.
Proof.
  destruct (full_list_reorder_is_dense scenarioA
              {| active_id := "3"; over_id := Some "1" |}
              (fun _ => Resolves None))
    as [[out [newOrder [i [j [H1 [_ [_ [H2 _]]]]]]]] _].
  - reflexivity.
  - discriminate.
  - apply (bool_decide_unpack _). vm_compute. exact I.
  - discriminate.
  - intros k _. reflexivity.
  - exists out. split; [exact H1 | exact H2].
Defined.

End ReorderTheorems.

(** ** Tag selection and the view *)

Section TagTheorems.

Lemma filter_comm {A} (p q : A -> bool) (l : list A) :
  List.filter p (List.filter q l) = List.filter q (List.filter p l).
Proof.
  induction l as [|x l IH]; [reflexivity|]. simpl.
  destruct (p x) eqn:Hp, (q x) eqn:Hq; simpl; rewrite ?Hp, ?Hq, IH; reflexivity.
Qed.

Lemma filter_sublist_weaker {A} (p q : A -> bool) (l : list A) :
  (forall x, p x = true -> q x = true) ->
  List.filter p l `sublist_of` List.filter q l.
Proof.
  intros Hpq. induction l as [|x l IH]; simpl; [constructor|].
  destruct (p x) eqn:Hp.
  - rewrite (Hpq x Hp). now constructor.
  - destruct (q x); [now constructor | exact IH].
Qed.

Lemma toggleTag_absent (T : list string) (tag : string) :
  ~ In tag T -> toggleTag T tag = T ++ [tag].
Proof.
  intros H. unfold toggleTag.
  destruct (arrayIncludes T tag) eqn:E; [|reflexivity].
  apply arrayIncludes_spec in E. contradiction.
Qed.

Lemma toggleTag_present (T : list string) (tag : string) :
  In tag T ->
  toggleTag T tag = List.filter (fun t => negb (String.eqb t tag)) T.
Proof.
  intros H. unfold toggleTag. apply arrayIncludes_spec in H. now rewrite H.
Qed.

(** X1.  Toggling a tag flips that tag and no other: afterwards a tag is
    selected exactly when it is the toggled one and was not selected, or is
    another one and was selected.  A selection without repetitions stays
    without repetitions. *)
Theorem toggleTag_flips_one_tag (T : list string) (tag : string) :
  (forall t, In t (toggleTag T tag) <->
             (t = tag /\ ~ In tag T) \/ (t <> tag /\ In t T))
  /\ (NoDup T -> NoDup (toggleTag T tag)).
Proof.
  destruct (in_dec String.string_dec tag T) as [Hin | Hout].
  - rewrite (toggleTag_present T tag Hin). split.
    + intros t. rewrite filter_In, negb_true_iff, String.eqb_neq. tauto.
    + intros Hnd. eapply sublist_NoDup; [exact Hnd | apply filter_sublist].
  - rewrite (toggleTag_absent T tag Hout). split.
    + intros t. rewrite in_app_iff. simpl. split.
      * intros [H | [<- | []]]; [right; split; [congruence | exact H] | now left].
      * intros [[-> _] | [_ H]]; [right; now left | now left].
    + intros Hnd. apply NoDup_app. split; [exact Hnd|]. split.
      * intros x Hx Hx'. apply list_elem_of_singleton in Hx'. subst.
        apply Hout. now apply list_elem_of_In.
      * apply NoDup_singleton.
Qed.

Lemma toggleTag_flips_one_tag_witness :
  NoDup (toggleTag ["work"; "rust"] "rust").
Proof.
  apply (toggleTag_flips_one_tag ["work"; "rust"] "rust").
  apply (bool_decide_unpack _). vm_compute. exact I.
Defined.

(** X2.  Selecting a tag that was not selected and clicking it again gives
    back the selection as it was, in the same order. *)
Theorem toggleTag_twice_restores (T : list string) (tag : string) :
  ~ In tag T -> toggleTag (toggleTag T tag) tag = T.
Proof.
  intros Hout. rewrite (toggleTag_absent T tag Hout).
  rewrite toggleTag_present by (apply in_app_iff; right; now left).
  rewrite List.filter_app. simpl. rewrite String.eqb_refl. simpl.
  rewrite app_nil_r. apply filter_all.
  intros t Ht. apply negb_true_iff, String.eqb_neq. congruence.
Qed.

Lemma toggleTag_twice_restores_witness :
  toggleTag (toggleTag ["work"] "rust") "rust" = ["work"].
Proof.
  apply (toggleTag_twice_restores ["work"] "rust").
  simpl. intros [H | []]. discriminate.
Defined.

Lemma truthy_toLowerCase (s : string) : truthy (toLowerCase s) = truthy s.
Proof. now destruct s. Qed.

(** X3.  The view depends on the search text only through its lower-cased
    form: two search texts that differ in letter case give the same view. *)
Theorem search_text_case_is_ignored
    (L : list Bookmark) (s s' : string) (T : list string) :
  toLowerCase s = toLowerCase s' ->
  filterBookmarks L s T = filterBookmarks L s' T.
Proof.
  intros E. rewrite !filterBookmarks_unfold.
  assert (Ht : truthy s = truthy s')
    by now rewrite <- (truthy_toLowerCase s), <- (truthy_toLowerCase s'), E.
  rewrite Ht. destruct (truthy s'); [|reflexivity].
  f_equal. apply filter_ext. intros b. unfold matchesSearch. now rewrite E.
Qed.

Lemma search_text_case_is_ignored_witness :
  filterBookmarks (bookmarks scenarioA) "BookMark 2" []
  = filterBookmarks (bookmarks scenarioA) "bookmark 2" [].
Proof.
  apply (search_text_case_is_ignored (bookmarks scenarioA)
           "BookMark 2" "bookmark 2" []).
  reflexivity.
Defined.

(** X4.  Selecting the first tag can only narrow the view, and selecting one
    more tag when some are selected can only widen it: the old view is a
    subsequence of the new one. *)
Theorem more_tags_widen_the_view
    (L : list Bookmark) (s : string) (T : list string) (tag : string) :
  filterBookmarks L s (toggleTag [] tag) `sublist_of` filterBookmarks L s []
  /\ (T <> [] -> ~ In tag T ->
      filterBookmarks L s T `sublist_of` filterBookmarks L s (toggleTag T tag)).
Proof.
  split.
  - rewrite !filterBookmarks_unfold. simpl. apply filter_sublist.
  - intros Hne Hout. rewrite (toggleTag_absent T tag Hout).
    rewrite !filterBookmarks_unfold.
    assert (H1 : (0 <? length T)%nat = true)
      by (destruct T; [congruence | reflexivity]).
    assert (H2 : (0 <? length (T ++ [tag]))%nat = true)
      by (destruct T; [congruence | reflexivity]).
    rewrite H1, H2.
    apply filter_sublist_weaker. intros b Hb.
    apply matchesTags_spec in Hb. destruct Hb as [x [Hx Hb]].
    apply matchesTags_spec. exists x. split; [|exact Hb].
    apply in_app_iff. now left.
Qed.

Lemma more_tags_widen_the_view_witness :
  filterBookmarks (bookmarks scenarioA) "" ["work"]
    `sublist_of` filterBookmarks (bookmarks scenarioA) "" (toggleTag ["work"] "rust").
Proof.
  apply (more_tags_widen_the_view (bookmarks scenarioA) "" ["work"] "rust").
  - discriminate.
  - simpl. intros [H | []]. discriminate.
Defined.

End TagTheorems.

(** ** Delete and the view *)

Section DeleteExtras.

Lemma sublist_sorted (l1 l2 : list Bookmark) :
  l1 `sublist_of` l2 -> StronglySorted byPosition l2 -> StronglySorted byPosition l1.
Proof.
  induction 1 as [|x l1 l2 Hsub IH|x l1 l2 Hsub IH]; intros Hs.
  - constructor.
  - apply StronglySorted_inv in Hs. destruct Hs as [Hs Hx].
    constructor; [now apply IH|].
    apply Forall_forall. intros y Hy.
    rewrite Forall_forall in Hx. apply Hx. eapply elem_of_sublist; eauto.
  - apply StronglySorted_inv in Hs. destruct Hs as [Hs _]. now apply IH.
Qed.

Lemma delete_sublist (st : State) (id0 : string) (answer : Answer) :
  bookmarks (state (handleDeleteBookmark st id0 answer)) `sublist_of` bookmarks st.
Proof.
  unfold handleDeleteBookmark. destruct (awaitChecked answer); simpl.
  - reflexivity.
  - apply filter_sublist.
Qed.

(** X5.  After a successful delete, the recomputed view is the view computed
    from the old working list with the bookmarks of that id taken out: the
    remaining cards stay in the order they had. *)
Theorem view_after_delete (st : State) (id0 : string) :
  filteredBookmarks (filterEffect (state (handleDeleteBookmark st id0 (Resolves None))))
  = List.filter (keeps id0)
      (filterBookmarks (bookmarks st) (searchTerm st) (selectedTags st)).
Proof.
  simpl. rewrite !filterBookmarks_unfold.
  destruct (0 <? length (selectedTags st))%nat, (truthy (searchTerm st)).
  - rewrite (filter_comm (keeps id0)). f_equal. apply filter_comm.
  - apply filter_comm.
  - apply filter_comm.
  - reflexivity.
Qed.

(** X6.  Whatever the store answers, a delete keeps the two properties of the
    working list: ids without repetition stay without repetition, and a list
    in ascending position order stays in ascending position order. *)
Theorem delete_keeps_ids_distinct_and_order
    (st : State) (id0 : string) (answer : Answer) :
  let out := handleDeleteBookmark st id0 answer in
  (NoDup (id <$> bookmarks st) -> NoDup (id <$> bookmarks (state out)))
  /\ (StronglySorted byPosition (bookmarks st) ->
      StronglySorted byPosition (bookmarks (state out))).
Proof.
  cbv zeta. pose proof (delete_sublist st id0 answer) as Hsub. split.
  - intros Hnd. eapply sublist_NoDup; [exact Hnd|]. now apply fmap_sublist.
  - now apply sublist_sorted.
Qed.

Lemma delete_keeps_ids_distinct_and_order_witness :
  StronglySorted byPosition
    (bookmarks (state (handleDeleteBookmark scenarioA "2" (Resolves None)))).
Proof.
  apply (delete_keeps_ids_distinct_and_order scenarioA "2" (Resolves None)).
  simpl. unfold byPosition. repeat constructor; simpl; lia.
Defined.

End DeleteExtras.

(** ** Reorder over any view *)

Section ReorderExtras.

Lemma findIndexFrom_found {A} (p : A -> bool) (l : list A) (i : Z) :
  0 <= i -> findIndexFrom p l i <> -1 ->
  exists u, l !! Z.to_nat (findIndexFrom p l i - i) = Some u /\ p u = true.
Proof.
  revert i; induction l as [|x l IH]; intros i Hi Hr; simpl in *; [congruence|].
  destruct (p x) eqn:Hp.
  - rewrite Z.sub_diag. exists x. now split.
  - destruct (IH (i + 1) ltac:(lia) Hr) as [u [Hu Hpu]].
    pose proof (findIndexFrom_range p l (i + 1) ltac:(lia)) as Hrange.
    exists u. split; [|exact Hpu].
    replace (Z.to_nat (findIndexFrom p l (i + 1) - i))
      with (S (Z.to_nat (findIndexFrom p l (i + 1) - (i + 1)))) by lia.
    exact Hu.
Qed.

Lemma findIndexFrom_none {A} (p : A -> bool) (l : list A) (i : Z) :
  (forall x, In x l -> p x = false) -> findIndexFrom p l i = -1.
Proof.
  revert i; induction l as [|x l IH]; intros i H; simpl; [reflexivity|].
  rewrite (H x) by now left. apply IH. intros y Hy. apply H. now right.
Qed.

Lemma findIndexFrom_some {A} (p : A -> bool) (l : list A) (i : Z) (x : A) :
  0 <= i -> In x l -> p x = true -> findIndexFrom p l i <> -1.
Proof.
  revert i; induction l as [|y l IH]; intros i Hi Hx Hp; simpl in *; [contradiction|].
  destruct (p y) eqn:Hy; [lia|].
  destruct Hx as [-> | Hx]; [congruence|]. apply (IH (i + 1)); [lia | exact Hx | exact Hp].
Qed.

(** The reconcile callback either leaves the copy alone or overwrites one
    bookmark that has the id it looked for. *)
Lemma reconcileStep_cases (updated : list Bookmark) (b : Bookmark) (k : nat) :
  reconcileStep updated b k = updated
  \/ exists n u, updated !! n = Some u /\ id u = id b
                 /\ reconcileStep updated b k
                    = <[n := setPosition b (Z.of_nat k)]> updated.
Proof.
  unfold reconcileStep, findIndex.
  destruct (findIndexFrom _ updated 0 =? -1) eqn:E; simpl; [now left|].
  apply Z.eqb_neq in E.
  destruct (findIndexFrom_found _ updated 0 ltac:(lia) E) as [u [Hu Hp]].
  rewrite Z.sub_0_r in Hu. apply String.eqb_eq in Hp.
  right. eexists _, u. split; [exact Hu|]. split; [exact Hp | reflexivity].
Qed.

Lemma reconcileStep_ids (updated : list Bookmark) (b : Bookmark) (k : nat) :
  id <$> reconcileStep updated b k = id <$> updated.
Proof.
  destruct (reconcileStep_cases updated b k) as [-> | [n [u [Hu [Hid ->]]]]];
    [reflexivity|].
  rewrite list_fmap_insert. simpl. rewrite <- Hid.
  apply list_insert_id. now rewrite list_lookup_fmap, Hu.
Qed.

Lemma reconcileStep_keeps (updated : list Bookmark) (b x : Bookmark) (k : nat) :
  x ∈ updated -> id x <> id b -> x ∈ reconcileStep updated b k.
Proof.
  intros Hx Hne.
  destruct (reconcileStep_cases updated b k) as [-> | [n [u [Hu [Hid ->]]]]];
    [exact Hx|].
  apply list_elem_of_lookup in Hx. destruct Hx as [m Hm].
  apply list_elem_of_lookup. exists m.
  rewrite list_lookup_insert_ne; [exact Hm|].
  intros ->. rewrite Hu in Hm. injection Hm as ->. congruence.
Qed.

Lemma forEach_ids (l updated : list Bookmark) (k : nat) :
  id <$> forEachFrom reconcileStep l k updated = id <$> updated.
Proof.
  revert k updated; induction l as [|b l IH]; intros k updated; simpl;
    [reflexivity|].
  now rewrite IH, reconcileStep_ids.
Qed.

Lemma forEach_keeps (l updated : list Bookmark) (k : nat) (x : Bookmark) :
  x ∈ updated -> id x ∉ id <$> l -> x ∈ forEachFrom reconcileStep l k updated.
Proof.
  revert k updated; induction l as [|b l IH]; intros k updated Hx Hout; simpl;
    [exact Hx|].
  rewrite fmap_cons in Hout. apply not_elem_of_cons in Hout.
  destruct Hout as [Hb Hl].
  apply IH; [|exact Hl]. now apply reconcileStep_keeps.
Qed.

Lemma reconcile_ids (prev view : list Bookmark) :
  id <$> reconcile prev view ≡ₚ id <$> prev.
Proof.
  unfold reconcile. now rewrite sortByPosition_Permutation, forEach_ids.
Qed.

Lemma reconcile_keeps (prev view : list Bookmark) (x : Bookmark) :
  x ∈ prev -> id x ∉ id <$> view -> x ∈ reconcile prev view.
Proof.
  intros Hx Hout. unfold reconcile.
  rewrite sortByPosition_Permutation. now apply forEach_keeps.
Qed.

(** X7.  Whatever the view, the event and the store's answers, a reorder
    neither adds nor drops a bookmark: the ids of the working list afterwards
    are those before, rearranged.  A bookmark whose id is not in the view
    (hidden by the filter) stays in the working list as it was, position
    included.  After a move that no rejection interrupts, the working list
    is in ascending position order. *)
Theorem reorder_keeps_ids_and_hidden_bookmarks
    (st : State) (event : DragEndEvent) (answers : nat -> Answer) (out : Outcome) :
  handleDragEnd st event answers = Some out ->
  id <$> bookmarks (state out) ≡ₚ id <$> bookmarks st
  /\ (forall b, b ∈ bookmarks st -> id b ∉ id <$> filteredBookmarks st ->
                b ∈ bookmarks (state out))
  /\ (Some (active_id event) <> over_id event ->
      (forall k, awaitUnchecked (answers k) = None) ->
      StronglySorted byPosition (bookmarks (state out))).
Proof.
  unfold handleDragEnd.
  destruct (bool_decide (Some (active_id event) = over_id event)) eqn:Hd;
    simpl negb; cbv iota.
  { intros [= <-]. simpl. split; [reflexivity|]. split; [auto|].
    intros Hne. apply bool_decide_eq_true_1 in Hd. contradiction. }
  destruct (arrayMove (filteredBookmarks st) _ _) as [newOrder|] eqn:Hmove;
    [|discriminate].
  pose proof (arrayMove_Permutation _ _ _ _ Hmove) as Hperm.
  cbv zeta. simpl user. simpl bookmarks.
  destruct (persistFrom (user st) (updatesOf newOrder) answers 0)
    as [sent [message|]] eqn:Hsent.
  - destruct (arrayMove newOrder _ _) as [reverted|]; [|discriminate].
    intros [= <-]. simpl. split; [reflexivity|]. split; [auto|].
    intros _ Hnone. rewrite persistFrom_all in Hsent by (intros; apply Hnone).
    discriminate.
  - intros [= <-]. simpl. split; [apply reconcile_ids|]. split.
    + intros b Hb Hout. apply reconcile_keeps; [exact Hb|]. now rewrite Hperm.
    + intros _ _. apply sortByPosition_sorted.
Qed.

Lemma reorder_keeps_ids_and_hidden_bookmarks_witness :
  let hidden := mkBookmark "9" 1 in
  let st := {| user := Some "owner";
               bookmarks := [mkBookmark "1" 0; hidden; mkBookmark "3" 2];
               filteredBookmarks := [mkBookmark "1" 0; mkBookmark "3" 2];
               searchTerm := "1"; selectedTags := [] |} in
  exists out,
    handleDragEnd st {| active_id := "1"; over_id := Some "3" |}
                  (fun _ => Resolves None) = Some out
    /\ hidden ∈ bookmarks (state out).
Proof.
  intros hidden st.
  destruct (handleDragEnd st {| active_id := "1"; over_id := Some "3" |}
                          (fun _ => Resolves None)) as [out|] eqn:Hout;
    [|vm_compute in Hout; discriminate].
  exists out. split; [reflexivity|].
  apply (reorder_keeps_ids_and_hidden_bookmarks st _ _ out Hout).
  - apply list_elem_of_In. simpl. right. now left.
  - apply (bool_decide_unpack _). vm_compute. exact I.
Defined.

End ReorderExtras.

Section DropOutside.

Lemma rejected_request_reverts_view_witness :
  exists out,
    handleDragEnd scenarioA {| active_id := "1"; over_id := Some "3" |}
                  (fun k => if (k =? 1)%nat then Rejects "offline" else Resolves None)
    = Some out
    /\ state out = scenarioA
    /\ toasts out = [errorToast "Error updating order" "offline"].
Proof.
  apply (rejected_request_reverts_view scenarioA
           {| active_id := "1"; over_id := Some "3" |}
           (fun k => if (k =? 1)%nat then Rejects "offline" else Resolves None)
           1 "offline").
  - discriminate.
  - discriminate.
  - simpl. lia.
  - intros j Hj. assert (j = 0)%nat as -> by lia. reflexivity.
  - reflexivity.
Defined.

Lemma moved_to_last {A} (l : list A) (i : nat) (x : A) :
  l !! i = Some x -> moved l i (length l - 1) = delete i l ++ [x].
Proof.
  intros Hx. rewrite (moved_lookup l i _ x Hx).
  assert (Hd : length (delete i l) = (length l - 1)%nat)
    by (rewrite length_delete; eauto).
  rewrite take_ge, drop_ge by lia. reflexivity.
Qed.

(** X9.  When the dragged card is dropped outside every card ([over] is
    null) the handler does not treat it as a no-op: the card is moved to the
    end of the view, and that order is what is shown and, when no request is
    rejected, sent to the store. *)
Theorem drop_outside_moves_card_to_end
    (st : State) (event : DragEndEvent) (answers : nat -> Answer) :
  over_id event = None ->
  In (active_id event) (id <$> filteredBookmarks st) ->
  exists i x out,
    filteredBookmarks st !! i = Some x
    /\ id x = active_id event
    /\ oldIndexOf st event = Z.of_nat i
    /\ arrayMove (filteredBookmarks st) (oldIndexOf st event) (newIndexOf st event)
       = Some (delete i (filteredBookmarks st) ++ [x])
    /\ handleDragEnd st event answers = Some out
    /\ (noneRejectedBefore answers (length (filteredBookmarks st)) ->
        filteredBookmarks (state out) = delete i (filteredBookmarks st) ++ [x]
        /\ calls out
           = requestsFor (user st) (delete i (filteredBookmarks st) ++ [x])).
Proof.
  intros Hover Hin.
  assert (Hdistinct : Some (active_id event) <> over_id event)
    by (rewrite Hover; discriminate).
  assert (Hview : filteredBookmarks st <> [])
    by (destruct (filteredBookmarks st); [contradiction | discriminate]).
  apply in_map_iff in Hin. destruct Hin as [a [Ha Hina]].
  pose proof (findIndex_range (fun item => String.eqb (id item) (active_id event))
                (filteredBookmarks st)) as Hrange.
  assert (Hold : oldIndexOf st event <> -1).
  { apply (findIndexFrom_some _ _ 0 a); [lia | exact Hina|].
    now apply String.eqb_eq. }
  destruct (findIndexFrom_found _ _ 0 ltac:(lia) Hold) as [x [Hx Hidx]].
  apply String.eqb_eq in Hidx. rewrite Z.sub_0_r in Hx.
  fold (findIndex (fun item => String.eqb (id item) (active_id event))
                  (filteredBookmarks st)) in Hx, Hold.
  fold (oldIndexOf st event) in Hx, Hrange.
  set (i := Z.to_nat (oldIndexOf st event)) in *.
  assert (Hi : oldIndexOf st event = Z.of_nat i) by (unfold i; lia).
  assert (Hnew : newIndexOf st event = -1).
  { apply findIndexFrom_none. intros y _. unfold isOver. now rewrite Hover. }
  assert (Hmoved :
            moved (filteredBookmarks st)
              (slot (length (filteredBookmarks st)) (oldIndexOf st event))
              (slot (length (filteredBookmarks st)) (newIndexOf st event))
            = delete i (filteredBookmarks st) ++ [x]).
  { rewrite Hnew. unfold slot at 2. simpl.
    replace (slot _ (oldIndexOf st event)) with i
      by (unfold slot; rewrite (proj2 (Z.ltb_ge _ 0)) by lia; reflexivity).
    now apply moved_to_last. }
  pose proof (arrayMove_view st event Hview) as Hmove.
  pose proof (handleDragEnd_move st event answers Hdistinct Hview) as Hrun.
  fold (oldIndexOf st event) (newIndexOf st event) in Hmove, Hrun.
  rewrite Hmoved in Hmove, Hrun.
  set (newOrder := delete i (filteredBookmarks st) ++ [x]) in *.
  assert (Hlen : length newOrder = length (filteredBookmarks st))
    by (rewrite <- Hmoved; apply moved_length).
  destruct (persistFrom (user st) (updatesOf newOrder) answers 0)
    as [sent thrown] eqn:Hsent.
  assert (Hout : exists out, handleDragEnd st event answers = Some out
                   /\ (thrown = None ->
                       filteredBookmarks (state out) = newOrder
                       /\ calls out = sent)).
  { rewrite Hrun. destruct thrown; eexists; (split; [reflexivity|]).
    - discriminate.
    - intros _. now split. }
  destruct Hout as [out [Hout Hok]].
  exists i, x, out. repeat (split; [assumption|]).
  intros Hnone. rewrite persistFrom_all in Hsent.
  - injection Hsent as <- <-. destruct (Hok eq_refl) as [H1 H2].
    split; [exact H1|]. rewrite H2. apply requestsFor_updatesOf.
  - intros k Hk. apply Hnone. rewrite length_updatesOf, Hlen in Hk. simpl. lia.
Qed.

Lemma drop_outside_moves_card_to_end_witness :
  exists i x out,
    filteredBookmarks scenarioA !! i = Some x
    /\ handleDragEnd scenarioA {| active_id := "1"; over_id := None |}
                     (fun _ => Resolves None) = Some out
    /\ filteredBookmarks (state out) = delete i (filteredBookmarks scenarioA) ++ [x].
Proof.
  destruct (drop_outside_moves_card_to_end scenarioA
              {| active_id := "1"; over_id := None |} (fun _ => Resolves None))
    as [i [x [out [H1 [_ [_ [_ [H2 H3]]]]]]]].
  - reflexivity.
  - simpl. now left.
  - exists i, x, out. split; [exact H1|]. split; [exact H2|].
    apply H3. intros k _. reflexivity.
Defined.

End DropOutside.

(** ** Normalisation at the two ends *)

Section NormaliseExtras.

(** X10.  When no returned row has a position yet, the working list gets the
    positions 0, 1, ..., n-1 in store order; when every row has one, the
    working list has exactly the stored positions, in store order. *)
Theorem normalise_all_or_nothing (rows : list Row) (ps : list Z) :
  (Forall (fun r => r_position r = None) rows ->
   position <$> bookmarksWithOrder (Some rows) = dense (length rows))
  /\ (r_position <$> rows = Some <$> ps ->
      position <$> bookmarksWithOrder (Some rows) = ps).
Proof.
  unfold bookmarksWithOrder, dense. rewrite fmap_imap. split.
  - intros Hnone. rewrite <- (imap_seq rows Z.of_nat 0).
    apply imap_ext. intros i r Hr. simpl.
    rewrite Forall_forall in Hnone.
    now rewrite (Hnone r) by (eapply list_elem_of_lookup_2; eauto).
  - intros Hall. apply list_eq. intros i.
    rewrite list_lookup_imap.
    assert (Hi : (r_position <$> rows) !! i = (Some <$> ps) !! i) by now rewrite Hall.
    rewrite !list_lookup_fmap in Hi.
    destruct (rows !! i) as [r|], (ps !! i) as [p|]; simpl in *; try discriminate.
    + injection Hi as Hi. now rewrite Hi.
    + reflexivity.
Qed.

Lemma normalise_all_or_nothing_witness :
  position <$> bookmarksWithOrder (Some [rowAt None; rowAt None]) = dense 2.
Proof.
  apply (normalise_all_or_nothing [rowAt None; rowAt None] []).
  repeat constructor.
Defined.

End NormaliseExtras.

(** ** Stored tags and stored summaries *)

Section FormExtras.

Lemma all_trimStart (p : ascii -> bool) (s : string) :
  all p s = true -> all p (trimStart s) = true.
Proof.
  induction s as [|c s IH]; simpl; [auto|].
  intros H. apply andb_true_iff in H. destruct H as [Hc Hs].
  destruct (isWhiteSpace c); [auto|]. simpl. now rewrite Hc, Hs.
Qed.

Lemma all_trimEnd (p : ascii -> bool) (s : string) :
  all p s = true -> all p (trimEnd s) = true.
Proof.
  induction s as [|c s IH]; simpl; [auto|].
  intros H. apply andb_true_iff in H. destruct H as [Hc Hs].
  specialize (IH Hs). destruct (trimEnd s) as [|d r].
  - destruct (isWhiteSpace c); simpl; [reflexivity | now rewrite Hc].
  - simpl in *. now rewrite Hc, IH.
Qed.

Lemma trimStart_id (s : string) :
  (forall c, first s = Some c -> isWhiteSpace c = false) -> trimStart s = s.
Proof. destruct s as [|c s]; simpl; [auto|]. intros H. now rewrite (H c). Qed.

Lemma trimEnd_id (s : string) :
  (forall c, last s = Some c -> isWhiteSpace c = false) -> trimEnd s = s.
Proof.
  induction s as [|c s IH]; [reflexivity|]. intros H. simpl.
  destruct s as [|d s].
  - simpl. now rewrite (H c).
  - rewrite IH; [reflexivity|]. intros x Hx. apply H. exact Hx.
Qed.

Lemma trim_id (s : string) : noOuterWhiteSpace s -> trim s = s.
Proof.
  intros [Hf Hl]. unfold trim. rewrite (trimStart_id s Hf). now apply trimEnd_id.
Qed.

Lemma split_comma_noComma_id (x : string) :
  noComma x -> split_comma x = [x].
Proof.
  unfold noComma. induction x as [|c x IH]; [reflexivity|]. simpl.
  intros H. apply andb_true_iff in H. destruct H as [Hc Hx].
  apply negb_true_iff in Hc. now rewrite Hc, (IH Hx).
Qed.

Lemma split_comma_app (x rest : string) :
  noComma x ->
  split_comma (x +:+ String ","%char rest) = x :: split_comma rest.
Proof.
  unfold noComma. induction x as [|c x IH]; [reflexivity|].
  rewrite append_cons. simpl.
  intros H. apply andb_true_iff in H. destruct H as [Hc Hx].
  apply negb_true_iff in Hc. now rewrite Hc, (IH Hx).
Qed.

Lemma split_comma_concat (l : list string) :
  l <> [] -> Forall noComma l -> split_comma (String.concat "," l) = l.
Proof.
  induction l as [|x l IH]; [congruence|]. intros _ Hall.
  inversion Hall as [|? ? Hx Hl]; subst.
  destruct l as [|y l].
  - now apply split_comma_noComma_id.
  - change (String.concat "," (x :: y :: l))
      with (x +:+ String ","%char (String.concat "," (y :: l))).
    rewrite (split_comma_app x _ Hx). f_equal. apply IH; [discriminate | exact Hl].
Qed.

Lemma parseTags_spec (input : string) :
  Forall (fun tag => tag <> EmptyString /\ noOuterWhiteSpace tag /\ noComma tag)
         (parseTags input).
Proof.
  apply Forall_forall. intros tag Htag. unfold parseTags in Htag.
  apply list_elem_of_In, filter_In in Htag. destruct Htag as [Hin Hlen].
  split; [now apply nonempty_noOuter|].
  apply in_map_iff in Hin. destruct Hin as [seg [<- Hseg]].
  split; [apply trim_spec|].
  pose proof (split_comma_noComma input) as Hall.
  rewrite Forall_forall in Hall.
  unfold noComma, trim. apply all_trimEnd, all_trimStart.
  apply Hall. now apply list_elem_of_In.
Qed.

(** X11.  No stored tag holds a comma, and the stored tags survive a round
    trip: joined with commas and submitted again, they are parsed to the same
    tags. *)
Theorem stored_tags_round_trip (input : string) :
  Forall noComma (parseTags input)
  /\ parseTags (String.concat "," (parseTags input)) = parseTags input.
Proof.
  pose proof (parseTags_spec input) as Hspec. split.
  - eapply Forall_impl; [exact Hspec|]. now intros tag [_ [_ H]].
  - destruct (parseTags input) as [|t l] eqn:E; [reflexivity|].
    unfold parseTags at 1. rewrite split_comma_concat.
    + assert (Hid : List.map (fun tag => trim tag) (t :: l) = t :: l).
      { rewrite Forall_forall in Hspec.
        rewrite <- (map_id (t :: l)) at 2. apply map_ext_in.
        intros tag Htag. apply trim_id. apply Hspec. now apply list_elem_of_In. }
      rewrite Hid. apply filter_all. intros tag Htag.
      rewrite Forall_forall in Hspec.
      destruct (Hspec tag) as [Hne _]; [now apply list_elem_of_In|].
      destruct tag; [congruence | reflexivity].
    + discriminate.
    + eapply Forall_impl; [exact Hspec|]. now intros tag [_ [_ H]].
Qed.

Lemma substring0_all (n : nat) (s : string) :
  (String.length s <= n)%nat -> substring0 n s = s.
Proof.
  revert n; induction s as [|c s IH]; intros [|n] H; simpl in H;
    try reflexivity; try lia.
  rewrite substring0_cons, IH by lia. reflexivity.
Qed.

Lemma generateSummary_short (net : FetchOutcome) (s : string) :
  generateSummary net = Returns s -> (String.length s <= 503)%nat.
Proof.
  destruct net as [|[] [body|]]; simpl; intros [= <-];
    try (vm_compute; lia).
  destruct (500 <? String.length body)%nat eqn:E.
  - rewrite length_append, length_substring0.
    change (String.length marker) with 3%nat. lia.
  - apply Nat.ltb_ge in E. lia.
Qed.

(** X12.  The 1000-unit cap at insertion never shortens what
    [generateSummary] returned: the stored summary is that string itself,
    except that an empty page body is stored as null. *)
Theorem stored_summary_is_the_generated_one
    (net : FetchOutcome) (s user_id href protocol hostname title tagsInput : string) :
  generateSummary net = Returns s ->
  row_summary (insertRow user_id href protocol hostname title (Some s) tagsInput)
  = (if truthy s then Some s else None)
  /\ (s = EmptyString -> net = FetchResolves true (TextResolves EmptyString)).
Proof.
  intros Hs. pose proof (generateSummary_short net s Hs) as Hlen. split.
  - simpl. destruct (truthy s); [|reflexivity].
    now rewrite substring0_all by lia.
  - intros ->. destruct net as [|[] [body|]]; simpl in Hs; try discriminate.
    injection Hs as Hs.
    destruct (500 <? String.length body)%nat eqn:E.
    + apply (f_equal String.length) in Hs.
      rewrite length_append, length_substring0 in Hs. simpl in Hs.
      apply Nat.ltb_lt in E. lia.
    + now subst.
Qed.

Lemma stored_summary_is_the_generated_one_witness :
  row_summary (insertRow "owner" "https://a.example/" "https:" "a.example" "A"
                         (Some placeholder) "work")
  = Some placeholder.
Proof.
  apply (stored_summary_is_the_generated_one FetchRejects placeholder).
  reflexivity.
Defined.

End FormExtras.

(** ** The bookmark card *)

Section CardTheorems.

Lemma truthy_append (a b : string) : truthy (a +:+ b) = truthy a || truthy b.
Proof. destruct a; [now destruct b | reflexivity]. Qed.

Lemma truthy_faviconOf (u : ParsedURL) : truthy (faviconOf u) = true.
Proof.
  unfold faviconOf. rewrite !truthy_append. simpl. now rewrite orb_true_r.
Qed.

(** X13.  The card has no favicon to show exactly when the stored favicon is
    null or empty and the bookmark's url does not parse.  A favicon written by
    [handleSubmit] is never empty, so the card shows it as stored, whatever
    the url is. *)
Theorem card_favicon (parseURL : string -> URLResult) (b : Bookmark) :
  (getFaviconUrl parseURL b = None <->
     (favicon_url b = None \/ favicon_url b = Some EmptyString)
     /\ exists message, parseURL (url b) = InvalidURL message)
  /\ (forall u user_id title summary tagsInput,
        favicon_url b
        = Some (row_favicon_url (insertRow user_id (href u) (protocol u) (hostname u)
                                           title summary tagsInput)) ->
        getFaviconUrl parseURL b = favicon_url b).
Proof.
  unfold getFaviconUrl. split.
  - destruct (favicon_url b) as [[|c f]|]; simpl;
      destruct (parseURL (url b)) as [u|message].
    + split; [discriminate | intros [_ [m Hm]]; discriminate].
    + split; [intros _; split; [now right | eauto] | reflexivity].
    + split; [discriminate | intros [_ [m Hm]]; discriminate].
    + split; [discriminate | intros [[H | H] _]; discriminate].
    + split; [discriminate | intros [_ [m Hm]]; discriminate].
    + split; [intros _; split; [now left | eauto] | reflexivity].
  - intros u user_id title summary tagsInput ->. simpl.
    change (protocol u +:+ "//" +:+ hostname u +:+ "/favicon.ico") with (faviconOf u).
    now rewrite truthy_faviconOf.
Qed.

Lemma card_favicon_witness :
  let u := {| href := "https://a.example/x"; protocol := "https:";
              hostname := "a.example" |} in
  let b := {| id := "1"; url := "not a url"; title := "A";
              favicon_url := Some (faviconOf u); summary := None; tags := [];
              created_at := ""; position := 0 |} in
  getFaviconUrl (fun _ => InvalidURL "Invalid URL") b = Some (faviconOf u).
Proof.
  intros u b.
  apply (proj2 (card_favicon (fun _ => InvalidURL "Invalid URL") b)
               u "owner" "A" None "").
  reflexivity.
Defined.

(** X14.  The badges of a card account for every tag: the first three are
    shown in order, the [+n] badge appears exactly when there are more than
    three tags, and the number of badges shown plus [n] is the number of
    tags. *)
Theorem card_badges_account_for_all_tags (b : Bookmark) :
  shownTags b ++ drop 3 (tags b) = tags b
  /\ (length (shownTags b) <= 3)%nat
  /\ (length (shownTags b) + match moreTags b with Some n => n | None => 0 end
      = length (tags b))%nat
  /\ (moreTags b = None <-> (length (tags b) <= 3)%nat)
  /\ (forall n, moreTags b = Some n -> (0 < n)%nat).
Proof.
  unfold shownTags, moreTags. split; [apply take_drop|].
  rewrite length_take.
  destruct (3 <? length (tags b))%nat eqn:E;
    [apply Nat.ltb_lt in E | apply Nat.ltb_ge in E].
  - repeat split; try lia; try discriminate. intros n [= <-]. lia.
  - repeat split; try lia; try discriminate; auto.
Qed.

End CardTheorems.

(** ** Loading the grid *)

Section FetchExtras.

Lemma elem_of_setAdd (set : list string) (x t : string) :
  t ∈ setAdd set x <-> t = x \/ t ∈ set.
Proof.
  unfold setAdd. destruct (arrayIncludes set x) eqn:E.
  - apply arrayIncludes_spec, list_elem_of_In in E.
    split; [now right | intros [-> | H]; assumption].
  - rewrite elem_of_app, list_elem_of_singleton. tauto.
Qed.

Lemma NoDup_setAdd (set : list string) (x : string) :
  NoDup set -> NoDup (setAdd set x).
Proof.
  intros Hnd. unfold setAdd. destruct (arrayIncludes set x) eqn:E; [exact Hnd|].
  apply NoDup_app. split; [exact Hnd|]. split; [|apply NoDup_singleton].
  intros y Hy Hy'. apply list_elem_of_singleton in Hy'. subst y.
  apply list_elem_of_In, arrayIncludes_spec in Hy. congruence.
Qed.

Lemma fold_setAdd (l set : list string) :
  (forall t, t ∈ fold_left setAdd l set <-> t ∈ l \/ t ∈ set)
  /\ (NoDup set -> NoDup (fold_left setAdd l set)).
Proof.
  revert set; induction l as [|x l IH]; intros set; simpl.
  - split; [|auto]. intros t. rewrite elem_of_nil. tauto.
  - destruct (IH (setAdd set x)) as [Hin Hnd]. split.
    + intros t. rewrite Hin, elem_of_setAdd, elem_of_cons. tauto.
    + intros H. now apply Hnd, NoDup_setAdd.
Qed.

Lemma fold_rows (data : list Row) (set : list string) :
  (forall t, t ∈ fold_left (fun s row => fold_left setAdd (r_tags row) s) data set
             <-> (exists row, row ∈ data /\ t ∈ r_tags row) \/ t ∈ set)
  /\ (NoDup set ->
      NoDup (fold_left (fun s row => fold_left setAdd (r_tags row) s) data set)).
Proof.
  revert set; induction data as [|row data IH]; intros set; simpl.
  - split; [|auto]. intros t. split; [now right|].
    intros [[row [Hrow _]] | H]; [now apply elem_of_nil in Hrow | exact H].
  - destruct (IH (fold_left setAdd (r_tags row) set)) as [Hin Hnd].
    destruct (fold_setAdd (r_tags row) set) as [Hin' Hnd']. split.
    + intros t. rewrite Hin, Hin'. split.
      * intros [[r [Hr Ht]] | [Ht | Ht]].
        -- left. exists r. split; [now right | exact Ht].
        -- left. exists row. split; [now left | exact Ht].
        -- now right.
      * intros [[r [Hr Ht]] | Ht]; [|right; now right].
        apply elem_of_cons in Hr. destruct Hr as [-> | Hr].
        -- right. now left.
        -- left. now exists r.
    + intros H. now apply Hnd, Hnd'.
Qed.

Lemma insertString_Permutation (x : string) (l : list string) :
  insertString x l ≡ₚ x :: l.
Proof.
  induction l as [|y l IH]; simpl; [reflexivity|].
  destruct (String.ltb y x); [|reflexivity].
  rewrite IH. apply Permutation_swap.
Qed.

Lemma sortStrings_Permutation (l : list string) : sortStrings l ≡ₚ l.
Proof.
  induction l as [|x l IH]; simpl; [reflexivity|].
  now rewrite insertString_Permutation, IH.
Qed.

Lemma ltb_le (a b : string) : String.ltb a b = true -> String.le a b.
Proof.
  unfold String.le, String.ltb, String.leb.
  destruct (String.compare a b); simpl; auto; discriminate.
Qed.

Lemma nltb_le (a b : string) : String.ltb a b = false -> String.le b a.
Proof.
  unfold String.le, String.ltb, String.leb.
  rewrite (String.compare_antisym a b).
  destruct (String.compare b a); simpl; auto; discriminate.
Qed.

Lemma le_neq_ltb (a b : string) :
  String.le a b -> a <> b -> String.ltb a b = true.
Proof.
  unfold String.le, String.ltb, String.leb. intros Hle Hne.
  destruct (String.compare a b) eqn:E; simpl in *; auto; try contradiction.
  apply String.compare_eq_iff in E. contradiction.
Qed.

Lemma insertString_sorted (x : string) (l : list string) :
  StronglySorted String.le l -> StronglySorted String.le (insertString x l).
Proof.
  induction 1 as [|y l Hl IH Hy]; simpl; [repeat constructor|].
  destruct (String.ltb y x) eqn:E.
  - constructor; [exact IH|]. rewrite insertString_Permutation.
    constructor; [now apply ltb_le | exact Hy].
  - apply nltb_le in E. constructor; [now constructor|].
    constructor; [exact E|].
    eapply Forall_impl; [exact Hy|]. intros z Hz. now transitivity y.
Qed.

Lemma sortStrings_sorted (l : list string) :
  StronglySorted String.le (sortStrings l).
Proof.
  induction l as [|x l IH]; simpl; [constructor|]. now apply insertString_sorted.
Qed.

Lemma sorted_distinct_strict (l : list string) :
  StronglySorted String.le l -> NoDup l -> StronglySorted strictlyAscending l.
Proof.
  induction 1 as [|x l Hl IH Hx]; intros Hnd; [constructor|].
  apply NoDup_cons in Hnd. destruct Hnd as [Hout Hnd].
  constructor; [now apply IH|].
  apply Forall_forall. intros y Hy. rewrite Forall_forall in Hx.
  apply le_neq_ltb; [now apply Hx|]. intros ->. contradiction.
Qed.

(** X15.  After a successful load the tag chips are the distinct tags of the
    fetched rows, each once, in strictly ascending code-unit order: a tag is a
    chip exactly when some fetched row carries it. *)
Theorem tag_chips_are_sorted_and_exact
    (g : Grid) (uid : string) (data : option (list Row)) (answer : SelectAnswer) :
  user (core g) = Some uid ->
  awaitSelect answer = inl data ->
  let chips := allTags (grid (fetchBookmarks g answer)) in
  StronglySorted strictlyAscending chips
  /\ forall tag,
       In tag chips <->
       exists row, In row (match data with Some rows => rows | None => [] end)
                   /\ In tag (r_tags row).
Proof.
  intros Huser Hanswer. unfold fetchBookmarks. rewrite Huser, Hanswer. simpl.
  set (rows := match data with Some rows => rows | None => [] end).
  destruct (fold_rows rows []) as [Hin Hnd]. fold (collectTags rows) in Hin, Hnd.
  split.
  - apply sorted_distinct_strict; [apply sortStrings_sorted|].
    rewrite sortStrings_Permutation. apply Hnd. constructor.
  - intros tag. rewrite <- list_elem_of_In, sortStrings_Permutation, Hin.
    split.
    + intros [[row [Hrow Ht]] | H]; [|now apply elem_of_nil in H].
      exists row. split; now apply list_elem_of_In.
    + intros [row [Hrow Ht]]. left. exists row. split; now apply list_elem_of_In.
Qed.

Lemma tag_chips_are_sorted_and_exact_witness :
  let row tags := {| r_id := "r"; r_url := "https://example.com/";
                     r_title := "Example"; r_favicon_url := None;
                     r_summary := None; r_tags := tags; r_created_at := "";
                     r_position := None |} in
  let g := {| core := scenarioA; allTags := []; isLoading := true |} in
  StronglySorted strictlyAscending
    (allTags (grid (fetchBookmarks g
       (SelectResolves (Some [row ["work"; "rust"]; row ["art"; "work"]]) None)))).
Proof.
  intros row g.
  apply (tag_chips_are_sorted_and_exact g "owner"
           (Some [row ["work"; "rust"]; row ["art"; "work"]])
           (SelectResolves (Some [row ["work"; "rust"]; row ["art"; "work"]]) None));
    reflexivity.
Defined.

(** X16.  Loading is scoped to the signed-in user and loses nothing on
    failure.  Without a user no query is sent and nothing changes, the loading
    flag included.  With a user exactly one query is sent, filtered on that
    user's id and ordered by ascending position, and the loading flag ends
    false.  When the store reports an error or the request is rejected, the
    working list, the view, the filters and the tag chips are what they were
    and one destructive notification carries the message. *)
Theorem load_is_scoped_and_keeps_state_on_failure (g : Grid) (answer : SelectAnswer) :
  (user (core g) = None ->
   fetchBookmarks g answer = {| grid := g; queries := []; notices := [] |})
  /\ (forall uid,
        user (core g) = Some uid ->
        queries (fetchBookmarks g answer)
        = [ {| select_user_id := uid; order_column := "position";
               ascending := true |} ]
        /\ isLoading (grid (fetchBookmarks g answer)) = false
        /\ (forall message,
              awaitSelect answer = inr message ->
              core (grid (fetchBookmarks g answer)) = core g
              /\ allTags (grid (fetchBookmarks g answer)) = allTags g
              /\ notices (fetchBookmarks g answer)
                 = [errorToast "Error loading bookmarks" message])).
Proof.
  unfold fetchBookmarks. split.
  - now intros ->.
  - intros uid ->. destruct (awaitSelect answer) as [data|m]; simpl.
    + split; [reflexivity|]. split; [reflexivity|]. intros message H. discriminate.
    + split; [reflexivity|]. split; [reflexivity|]. intros message [= <-].
      repeat split.
Qed.

Lemma load_is_scoped_and_keeps_state_on_failure_witness :
  let g := {| core := scenarioA; allTags := ["work"]; isLoading := true |} in
  isLoading (grid (fetchBookmarks g (SelectRejects "offline"))) = false.
Proof.
  intros g.
  apply (proj2 (load_is_scoped_and_keeps_state_on_failure g (SelectRejects "offline"))
               "owner").
  reflexivity.
Defined.

End FetchExtras.

(** ** Metadata and submission *)

Section SubmitTheorems.
Variable parseURL : string -> URLResult.

Lemma extractMetadata_eq (url : string) (net : ProxyOutcome) :
  extractMetadata parseURL url net
  = Returns (match pageTitle net with
             | Some t => t
             | None => fallbackTitle parseURL url
             end).
Proof.
  unfold extractMetadata, pageTitle, fallbackTitle, hostnameOf, orElse, truthyOnly.
  destruct net as [|[[[t|] [o|]]|]]; simpl; try reflexivity;
    repeat match goal with
           | |- context [truthy ?s] => destruct (truthy s); simpl
           | |- context [parseURL ?u] => destruct (parseURL u); simpl
           end; reflexivity.
Qed.

Lemma generateSummary_returns (net : FetchOutcome) :
  exists s, generateSummary net = Returns s.
Proof. destruct net as [|[] [body|]]; simpl; eauto. Qed.

(** X17.  [extractMetadata] never throws, and the title it returns follows
    one chain: the trimmed text of the page's [title] element when that is
    not empty; else the page's [og:title] when that is not empty; else,
    also when the proxy failed or delivered nothing, the hostname of the url;
    else, when the url does not parse, the url itself. *)
Theorem metadata_title_chain (url : string) (net : ProxyOutcome) :
  (exists title, extractMetadata parseURL url net = Returns title)
  /\ extractMetadata parseURL url net
     = Returns (match pageTitle net with
                | Some t => t
                | None => fallbackTitle parseURL url
                end).
Proof. split; [eexists|]; apply extractMetadata_eq. Qed.

Lemma truthy_false (s : string) : truthy s = false <-> s = EmptyString.
Proof. destruct s; simpl; split; congruence. Qed.

(** X18.  A submission that cannot be saved sends nothing.  Without a user,
    or with a url that is blank once trimmed, nothing happens at all: no
    insert, no notification, the form and its loading flag as they were.
    With a url that does not parse, no insert is sent and the grid is not
    refreshed; the form keeps what was typed, the loading flag ends false,
    and one destructive notification shows the parser's message, or the
    default text when that message is empty. *)
Theorem submit_blocked_sends_nothing (f : Form) (net : Network) :
  (form_user f = None \/ trim (fd_url (formData f)) = EmptyString ->
   handleSubmit parseURL f net = Some (untouched f))
  /\ (forall uid message,
        form_user f = Some uid ->
        trim (fd_url (formData f)) <> EmptyString ->
        parseURL (trim (fd_url (formData f))) = InvalidURL message ->
        exists run,
          handleSubmit parseURL f net = Some run
          /\ inserts run = []
          /\ added run = 0%nat
          /\ formData (form run) = formData f
          /\ form_isLoading (form run) = false
          /\ shown run
             = [errorToast "Error saving bookmark"
                  (if truthy message then message else defaultDescription)]).
Proof.
  unfold handleSubmit. split.
  - intros [-> | Hblank]; [reflexivity|].
    rewrite Hblank. simpl. now destruct (form_user f).
  - intros uid message -> Hurl ->.
    destruct (truthy (trim (fd_url (formData f)))) eqn:E;
      [|apply truthy_false in E; contradiction].
    simpl. eexists. repeat split.
Qed.

(** X19.  Failed metadata and summary fetches never block saving.  With a
    signed-in user and a url that parses, whatever the proxy and the summary
    service do, exactly one row is sent for insertion: owned by the user, with
    the parsed url, the title of the metadata chain, the generated summary and
    the parsed tags; a failed proxy gives the fallback title and a failed
    summary fetch the placeholder.  The loading flag ends false.  When the
    store accepts the row, the form is cleared and the grid is refreshed once;
    when it does not, the form keeps what was typed, the grid is not
    refreshed and one destructive notification is shown. *)
Theorem submit_saves_despite_failed_fetches
    (f : Form) (net : Network) (uid : string) (u : ParsedURL) :
  form_user f = Some uid ->
  trim (fd_url (formData f)) <> EmptyString ->
  parseURL (trim (fd_url (formData f))) = ValidURL u ->
  exists run title summary,
    handleSubmit parseURL f net = Some run
    /\ extractMetadata parseURL (href u) (proxy net) = Returns title
    /\ generateSummary (jina net) = Returns summary
    /\ inserts run
       = [insertRow uid (href u) (protocol u) (hostname u) title (Some summary)
                    (fd_tags (formData f))]
    /\ form_isLoading (form run) = false
    /\ (proxy net = ProxyRejects -> title = fallbackTitle parseURL (href u))
    /\ (summaryFails (jina net) -> summary = placeholder)
    /\ (awaitChecked (insertAnswer net) = None ->
        formData (form run) = clearedForm /\ added run = 1%nat
        /\ Forall (fun t => destructive t = false) (shown run))
    /\ (forall message,
          awaitChecked (insertAnswer net) = Some message ->
          formData (form run) = formData f /\ added run = 0%nat
          /\ shown run
             = [errorToast "Error saving bookmark"
                  (if truthy message then message else defaultDescription)]).
Proof.
  intros Huser Hurl Hparse.
  destruct (generateSummary_returns (jina net)) as [summary Hsummary].
  pose proof (extractMetadata_eq (href u) (proxy net)) as Htitle.
  set (title := match pageTitle (proxy net) with
                | Some t => t
                | None => fallbackTitle parseURL (href u)
                end) in *.
  assert (Hrun : handleSubmit parseURL f net
                 = match awaitChecked (insertAnswer net) with
                   | None =>
                       Some {| form := {| form_user := form_user f;
                                          formData := clearedForm;
                                          form_isLoading := false |};
                               inserts := [insertRow uid (href u) (protocol u)
                                             (hostname u) title (Some summary)
                                             (fd_tags (formData f))];
                               shown := [ {| toast_title := "Bookmark saved!";
                                             toast_description :=
                                               "Your link has been saved and summarized.";
                                             destructive := false |} ];
                               added := 1 |}
                   | Some message =>
                       Some {| form := setLoading f false;
                               inserts := [insertRow uid (href u) (protocol u)
                                             (hostname u) title (Some summary)
                                             (fd_tags (formData f))];
                               shown := [errorToast "Error saving bookmark"
                                           (if truthy message then message
                                            else defaultDescription)];
                               added := 0 |}
                   end).
  { unfold handleSubmit. rewrite Huser.
    destruct (truthy (trim (fd_url (formData f)))) eqn:E;
      [|apply truthy_false in E; contradiction].
    simpl negb. cbv iota. rewrite Hparse, Htitle, Hsummary.
    now destruct (awaitChecked (insertAnswer net)). }
  assert (Hfail : summaryFails (jina net) -> summary = placeholder).
  { intros H. apply generateSummary_failure in H. congruence. }
  assert (Hproxy : proxy net = ProxyRejects -> title = fallbackTitle parseURL (href u)).
  { intros H. unfold title. now rewrite H. }
  destruct (awaitChecked (insertAnswer net)) as [message|] eqn:Hanswer;
    eexists _, title, summary; (split; [exact Hrun|]);
    (split; [exact Htitle|]); (split; [exact Hsummary|]);
    (split; [reflexivity|]); (split; [reflexivity|]);
    (split; [exact Hproxy|]); (split; [exact Hfail|]).
  - split; [discriminate|]. intros m [= <-]. repeat split.
  - split; [|discriminate]. intros _. repeat split. now repeat constructor.
Qed.

(** X20.  In every case [handleSubmit] completes, sends at most one insert,
    and either saved the bookmark, in which case the store accepted the one
    row, the form is cleared, the grid is refreshed once and no notification
    is destructive; or it did not, in which case the form keeps what was typed,
    the grid is not refreshed and every notification shown is destructive. *)
Theorem submit_clears_form_only_when_saved (f : Form) (net : Network) :
  exists run,
    handleSubmit parseURL f net = Some run
    /\ (length (inserts run) <= 1)%nat
    /\ ((added run = 1%nat
         /\ formData (form run) = clearedForm
         /\ length (inserts run) = 1%nat
         /\ awaitChecked (insertAnswer net) = None
         /\ Forall (fun t => destructive t = false) (shown run))
        \/ (added run = 0%nat
            /\ formData (form run) = formData f
            /\ Forall (fun t => destructive t = true) (shown run))).
Proof.
  destruct (generateSummary_returns (jina net)) as [summary Hsummary].
  unfold handleSubmit.
  destruct (form_user f) as [uid|];
    [|eexists; split; [reflexivity|]; simpl; split; [lia|];
      right; repeat split; constructor].
  destruct (truthy (trim (fd_url (formData f))));
    [|eexists; split; [reflexivity|]; simpl; split; [lia|];
      right; repeat split; constructor].
  simpl negb. cbv iota.
  destruct (parseURL (trim (fd_url (formData f)))) as [u|message].
  - rewrite extractMetadata_eq, Hsummary.
    destruct (awaitChecked (insertAnswer net)) as [message|];
      eexists; (split; [reflexivity|]); simpl; (split; [lia|]).
    + right. repeat split. now repeat constructor.
    + left. repeat split. now repeat constructor.
  - eexists. split; [reflexivity|]. simpl. split; [lia|].
    right. repeat split. now repeat constructor.
Qed.

End SubmitTheorems.

Lemma submit_blocked_sends_nothing_witness :
  let f := {| form_user := Some "owner";
              formData := {| fd_url := "   "; fd_tags := "work" |};
              form_isLoading := false |} in
  let net := {| proxy := ProxyRejects; jina := FetchRejects;
                insertAnswer := Resolves None |} in
  handleSubmit (fun _ => InvalidURL "Invalid URL") f net = Some (untouched f).
Proof.
  intros f net.
  apply (proj1 (submit_blocked_sends_nothing (fun _ => InvalidURL "Invalid URL") f net)).
  right. reflexivity.
Defined.

Lemma submit_saves_despite_failed_fetches_witness :
  let u := {| href := "https://a.example/x"; protocol := "https:";
              hostname := "a.example" |} in
  let f := {| form_user := Some "owner";
              formData := {| fd_url := " https://a.example/x "; fd_tags := "work, rust" |};
              form_isLoading := false |} in
  let net := {| proxy := ProxyRejects; jina := FetchRejects;
                insertAnswer := Resolves None |} in
  exists run,
    handleSubmit (fun _ => ValidURL u) f net = Some run
    /\ inserts run
       = [insertRow "owner" "https://a.example/x" "https:" "a.example" "a.example"
                    (Some placeholder) "work, rust"]
    /\ added run = 1%nat.
Proof.
  intros u f net.
  destruct (submit_saves_despite_failed_fetches (fun _ => ValidURL u) f net "owner" u)
    as [run [title [summary [H1 [_ [_ [H2 [_ [H3 [H4 [H5 _]]]]]]]]]]].
  - reflexivity.
  - discriminate.
  - reflexivity.
  - exists run. split; [exact H1|]. split.
    + rewrite H2, (H3 eq_refl), (H4 I). reflexivity.
    + now destruct (H5 eq_refl) as [_ [H _]].
Defined.
